(** * Day 20 (Jurassic Jigsaw) of aoc2020: a shallow embedding of
    [src/bin/20.rs] and the properties of its tile assembly and
    sea-monster search. *)

From Stdlib Require Import ZArith Lia List Permutation String Ascii Bool Btauto.
From stdpp Require Import base list gmap.

Import ListNotations.
Open Scope Z_scope.

(** ** Outcomes of fallible code

    Rust code of this file either returns, panics ([assert!], [unwrap] of
    [None], an out-of-range [Vec::remove]) or runs a [while]/[loop]
    forever.  Unbounded loops are run on fuel; running out of fuel is
    reported as [NoExit]. *)

Inductive res (A : Type) : Type :=
| Ret (a : A)
| Panic
| NoExit.
Arguments Ret {A} a.
Arguments Panic {A}.
Arguments NoExit {A}.

Definition res_bind {A B} (m : res A) (k : A -> res B) : res B :=
  match m with
  | Ret a => k a
  | Panic => Panic
  | NoExit => NoExit
  end.

Notation "'let*' x ':=' m 'in' k" := (res_bind m (fun x => k))
  (at level 200, x binder, m at level 100, k at level 200).

Definition of_option {A} (o : option A) : res A :=
  match o with Some a => Ret a | None => Panic end.

(** ** [TileRow]: a row of pixels as a [u16] bitfield *)

(** [1 << i] on a [u16].  The shifts of the program never exceed 9 on
    10-pixel tiles; for a shift of 16 or more a release build masks the
    shift amount (a debug build would panic). *)
Definition shl1 (i : nat) : Z := Z.shiftl 1 (Z.of_nat (Nat.modulo i 16)).

(** [for (i, p) in v.iter().rev().enumerate() { if *p { bitfield |= 1 << i } }] *)
Fixpoint from_vec_aux (ps : list bool) (i : nat) (acc : Z) : Z :=
  match ps with
  | [] => acc
  | p :: ps' => from_vec_aux ps' (S i) (if p then Z.lor acc (shl1 i) else acc)
  end.

Definition from_vec (v : list bool) : Z := from_vec_aux (rev v) 0 0.

(** [for i in 0..10 { if (self.0 & 1 << i) != 0 { new |= 1 << (10 - 1 - i) } }] *)
Fixpoint flip_aux (x : Z) (is : list nat) (new : Z) : Z :=
  match is with
  | [] => new
  | i :: is' =>
      flip_aux x is'
        (if negb (Z.eqb (Z.land x (shl1 i)) 0) then Z.lor new (shl1 (10 - 1 - i))
         else new)
  end.

Definition flip (x : Z) : Z := flip_aux x (seq 0 10) 0.

(** ** Pixel grids and tiles *)

Definition grid := list (list bool).

(** [grid[r][c]]; every index the program uses on a square grid is in
    range, where Rust's indexing returns the pixel. *)
Definition px (g : grid) (r c : nat) : bool := nth c (nth r g []) false.

Record tile := mk_tile {
  id : Z;                       (* u32 *)
  rows : grid;
  adjacent : gmap nat Z;        (* HashMap<usize, u32> *)
  fixed : bool
}.

Definition set_rows (t : tile) (g : grid) : tile :=
  mk_tile (id t) g (adjacent t) (fixed t).
Definition set_adjacent (t : tile) (a : gmap nat Z) : tile :=
  mk_tile (id t) (rows t) a (fixed t).
Definition set_fixed (t : tile) (b : bool) : tile :=
  mk_tile (id t) (rows t) (adjacent t) b.

(** [Tile::edges]: the loop over [(i, row)] sets bit [i] of [left] when
    [row[0]] is on and bit [len - 1 - i] of [right] when [row[len - 1]]
    is on, [len] being the number of rows. *)
Fixpoint side_bits (rs : list (list bool)) (len i : nat) (left right : Z) : Z * Z :=
  match rs with
  | [] => (left, right)
  | row :: rs' =>
      let left' := if nth 0 row false then Z.lor left (shl1 i) else left in
      let right' := if nth (len - 1) row false
                    then Z.lor right (shl1 (len - 1 - i)) else right in
      side_bits rs' len (S i) left' right'
  end.

(** [rows[0]], [row[0]] and [row[len - 1]] are read with defaults where
    Rust panics; on a square grid of side at least 1, which the statements
    on the values of [Tile::edges] assume, every index is in range and no
    default is read. *)
Definition grid_edges (g : grid) : list Z :=
  let top := from_vec (nth 0 g []) in
  let bottom := flip (from_vec (nth (length g - 1) g [])) in
  let '(lft, rgt) := side_bits g (length g) 0 0 0 in
  [top; rgt; bottom; lft].

Definition edges (t : tile) : list Z := grid_edges (rows t).

(** [flip_pixels]: reverse every row. *)
Definition flip_pixels (g : grid) : grid := map (@rev bool) g.

(** [rotate_pixels]: [new_grid[x] = [grid[len - y][x] for y in 1..=len]]
    for [x in 0..len], with [len = grid[0].len()]. *)
Definition rotate_pixels (g : grid) : grid :=
  let len := length (nth 0 g []) in
  map (fun x => map (fun y => px g (len - y) x) (seq 1 len)) (seq 0 len).

(** [Tile::rotate] and [Tile::flip] assert that the tile is not fixed. *)
Definition tile_rotate (t : tile) : res tile :=
  if fixed t then Panic else Ret (set_rows t (rotate_pixels (rows t))).
Definition tile_flip (t : tile) : res tile :=
  if fixed t then Panic else Ret (set_rows t (flip_pixels (rows t))).

(** ** [Vec] operations used as a stack *)

Fixpoint mapM {A B} (f : A -> res B) (l : list A) : res (list B) :=
  match l with
  | [] => Ret []
  | x :: l' => let* y := f x in let* ys := mapM f l' in Ret (y :: ys)
  end.

(** [Vec::pop]: the last element. *)
Definition vec_pop {A} (l : list A) : option (A * list A) :=
  match rev l with
  | [] => None
  | x :: r => Some (x, rev r)
  end.

(** [Iterator::position]: the first index satisfying [p]. *)
Fixpoint position {A} (p : A -> bool) (l : list A) : option nat :=
  match l with
  | [] => None
  | x :: l' => if p x then Some 0%nat else option_map S (position p l')
  end.

(** [Vec::remove], which panics out of range. *)
Fixpoint vec_remove {A} (idx : nat) (l : list A) : res (A * list A) :=
  match l, idx with
  | [], _ => Panic
  | x :: l', O => Ret (x, l')
  | x :: l', S idx' => let* r := vec_remove idx' l' in Ret (fst r, x :: snd r)
  end.

Definition contains (es : list Z) (e : Z) : bool := existsb (Z.eqb e) es.

(** [edges()[k]] on the 4-element edge array. *)
Definition edge_at (t : tile) (k : nat) : Z := nth k (edges t) 0.

Definition opposite (i : nat) : nat := Nat.modulo (i + 2) 4.

(** ** [match_puzzle] *)

(** Bound on the iterations of an unbounded Rust loop. *)
Definition loop_fuel : nat := 64.

(** [while edge_match.edges()[(i + 2) % 4] != edge { edge_match.rotate() }] *)
Fixpoint rotate_until (fuel : nat) (i : nat) (edge : Z) (m : tile) : res tile :=
  match fuel with
  | O => NoExit
  | S f =>
      if Z.eqb (edge_at m (opposite i)) edge then Ret m
      else let* m' := tile_rotate m in rotate_until f i edge m'
  end.

(** The orientation of an unfixed matching tile: mirror it when its edges
    do not contain [edge], rotate until [edge] faces the probed side, fix it. *)
Definition orient_fuel (fuel : nat) (i : nat) (edge : Z) (m : tile) : res tile :=
  let* m1 := if contains (edges m) edge then Ret m else tile_flip m in
  let* m2 := rotate_until fuel i edge m1 in
  Ret (set_fixed m2 true).

(** The predicate of [processing_stack.iter().position(..)]. *)
Definition candidate (edge : Z) (t : tile) : bool :=
  contains (edges t) edge || (contains (edges t) (flip edge) && negb (fixed t)).

(** One pass of the inner [for] loop of [match_puzzle], on side [i] of the
    processing tile; the state is (processing tile, processing stack, done
    stack). *)
Definition match_edge (i : nat) (edge : Z) (st : tile * list tile * list tile)
  : res (tile * list tile * list tile) :=
  let '(pt, stack, done) := st in
  match position (candidate edge) stack with
  | None => Ret st
  | Some idx =>
      let* r := vec_remove idx stack in
      let '(m0, stack') := r in
      let* m := if fixed m0 then Ret m0 else orient_fuel loop_fuel i edge m0 in
      if negb (Z.eqb (edge_at m (opposite i)) edge) then Panic
      else
        let pt' := set_adjacent pt (<[i := id m]> (adjacent pt)) in
        let m' := set_adjacent m (<[opposite i := id pt]> (adjacent m)) in
        if (3 <? size (adjacent m'))%nat then Ret (pt', stack', done ++ [m'])
        else Ret (pt', stack' ++ [m'], done)
  end.

Fixpoint match_edges (es : list Z) (i : nat) (st : tile * list tile * list tile)
  : res (tile * list tile * list tile) :=
  match es with
  | [] => Ret st
  | e :: es' => let* st' := match_edge i e st in match_edges es' (S i) st'
  end.

(** [while let Some(mut processing_tile) = processing_stack.pop() { .. }] *)
Fixpoint match_loop (fuel : nat) (stack done : list tile) : res (list tile) :=
  match fuel with
  | O => NoExit
  | S f =>
      match vec_pop stack with
      | None => Ret done
      | Some (pt0, stack') =>
          let pt := set_fixed pt0 true in
          let* st := match_edges (map flip (edges pt)) 0 (pt, stack', done) in
          let '(pt', stack'', done') := st in
          match_loop f stack'' (done' ++ [pt'])
      end
  end.

(** Every pass of the outer loop moves its tile to the done stack and no
    pass grows the processing stack, so [length tiles + 1] passes always
    suffice. *)
Definition match_puzzle (tiles : list tile) : res (list tile) :=
  match_loop (S (length tiles)) tiles [].

(** ** [arrange_tiles] *)

(** [tiles.iter().map(|tile| (tile.id, tile)).collect::<HashMap<_, _>>()]:
    a later tile with the same id replaces an earlier one. *)
Definition id_map (ts : list tile) : gmap Z tile :=
  foldl (fun m t => <[id t := t]> m) ∅ ts.

Definition has_key (a : gmap nat Z) (k : nat) : bool :=
  match a !! k with Some _ => true | None => false end.

Definition is_top_left (t : tile) : bool :=
  (size (adjacent t) =? 2)%nat && negb (has_key (adjacent t) 0)
  && negb (has_key (adjacent t) 3).

(** The inner [loop]: follow the right (1) links. *)
Fixpoint build_row (fuel : nat) (idm : gmap Z tile) (curr : tile) : res (list tile) :=
  match fuel with
  | O => NoExit
  | S f =>
      match adjacent curr !! 1%nat with
      | None => Ret [curr]
      | Some nid =>
          let* nxt := of_option (idm !! nid) in
          let* r := build_row f idm nxt in
          Ret (curr :: r)
      end
  end.

(** The outer [loop]: follow the bottom (2) links of each row's first tile. *)
Fixpoint build_grid (fuel row_fuel : nat) (idm : gmap Z tile) (corner : tile)
  : res (list (list tile)) :=
  match fuel with
  | O => NoExit
  | S f =>
      let* row := build_row row_fuel idm corner in
      match adjacent corner !! 2%nat with
      | None => Ret [row]
      | Some nid =>
          let* c := of_option (idm !! nid) in
          let* rest := build_grid f row_fuel idm c in
          Ret (row :: rest)
      end
  end.

(** A link walk longer than [length ts] revisits a tile and then repeats
    forever, so [length ts + 1] steps decide whether each loop exits. *)
Definition arrange_tiles (ts : list tile) : res (list (list tile)) :=
  let idm := id_map ts in
  let* corner := of_option (List.find is_top_left ts) in
  build_grid (S (length ts)) (S (length ts)) idm corner.

(** ** [form_image] *)

(** [strip_border]: [grid.remove(0)] and [row.remove(0)] panic on an
    empty vector, [pop] on an empty vector does nothing. *)
Definition strip_row (r : list bool) : res (list bool) :=
  match r with [] => Panic | _ :: r' => Ret (removelast r') end.

Definition strip_border (g : grid) : res grid :=
  match g with
  | [] => Panic
  | _ :: g' => mapM strip_row (removelast g')
  end.

(** [for (i, row) in tile.rows.iter().enumerate() { new_rows[i].extend(row) }],
    which panics when the tile has more rows than [new_rows]. *)
Fixpoint extend_rows (new_rows rs : grid) : res grid :=
  match rs, new_rows with
  | [], _ => Ret new_rows
  | _ :: _, [] => Panic
  | r :: rs', nr :: nrs =>
      let* rest := extend_rows nrs rs' in Ret ((nr ++ r) :: rest)
  end.

Fixpoint extend_all (new_rows : grid) (row : list tile) : res grid :=
  match row with
  | [] => Ret new_rows
  | t :: row' => let* nr := extend_rows new_rows (rows t) in extend_all nr row'
  end.

(** One row of tiles; [row[0]] panics on an empty row. *)
Definition compose_row (row : list tile) : res grid :=
  let* first := of_option (head row) in
  extend_all (repeat [] (length (rows first))) row.

Definition form_image (tiles : list tile) : res grid :=
  let* stripped := mapM (fun t => let* g := strip_border (rows t) in
                                  Ret (set_rows t g)) tiles in
  let* puzzle := arrange_tiles stripped in
  let* parts := mapM compose_row puzzle in
  Ret (concat parts).

(** ** The sea-monster search *)

Definition sea_monster : list (nat * nat) :=
  [(0, 18); (1, 0); (1, 5); (1, 6); (1, 11); (1, 12); (1, 17); (1, 18);
   (1, 19); (2, 1); (2, 4); (2, 7); (2, 10); (2, 13); (2, 16)]%nat.

(** [image[i][j]], which panics out of range. *)
Definition pixel (image : grid) (i j : nat) : res bool :=
  match nth_error image i with
  | Some row => of_option (nth_error row j)
  | None => Panic
  end.

(** [sea_monster.iter().all(|(dx, dy)| image[x + dx][y + dy])], which
    stops at the first pixel that is off. *)
Fixpoint all_pixels (image : grid) (x y : nat) (ds : list (nat * nat)) : res bool :=
  match ds with
  | [] => Ret true
  | d :: ds' =>
      let* b := pixel image (x + fst d) (y + snd d) in
      if b then all_pixels image x y ds' else Ret false
  end.

Definition monster_at (image : grid) (x y : nat) : res bool :=
  all_pixels image x y sea_monster.

(** [find_number_sea_monsters]: [image.len() - 3] and [image.len() - 20]
    underflow (a panic) on an image of fewer than 20 rows; the loops add
    [1] for each start [(x, y)] where the sea monster is found. *)
Definition find_number_sea_monsters (image : grid) : res nat :=
  let n := length image in
  if (n <? 20)%nat then Panic
  else
    let* counts := mapM (fun x =>
        let* found := mapM (fun y => monster_at image x y) (seq 0 (n - 20 + 1)) in
        Ret (length (List.filter (fun b : bool => b) found))) (seq 0 (n - 3 + 1)) in
    Ret (list_sum counts).

(** The body of the [while num_monsters == 0] loop of
    [get_water_roughness]: the new image and match count. *)
Definition roughness_pass (image : grid) : res (grid * nat) :=
  let image1 := rotate_pixels image in
  let* num1 := find_number_sea_monsters image1 in
  if (num1 =? 0)%nat then
    let image2 := flip_pixels image1 in
    let* num2 := find_number_sea_monsters image2 in
    Ret (image2, num2)
  else Ret (image1, num1).

(** The [while num_monsters == 0] loop of [get_water_roughness]. *)
Fixpoint roughness_loop (fuel : nat) (image : grid) (num : nat) : res (grid * nat) :=
  match fuel with
  | O => NoExit
  | S f =>
      if (num =? 0)%nat then
        let* st := roughness_pass image in
        let '(image', num') := st in
        roughness_loop f image' num'
      else Ret (image, num)
  end.

Definition count_on (image : grid) : nat := length (List.filter (fun p : bool => p) (concat image)).

(** [get_water_roughness] with [fuel] passes of its loop; the final [u64]
    subtraction wraps modulo [2 ^ 64], as the [u64] product of [part_one]
    does. *)
Definition get_water_roughness_fuel (fuel : nat) (image : grid) : res Z :=
  let* num := find_number_sea_monsters image in
  let* r := roughness_loop fuel image num in
  let '(img, n) := r in
  Ret ((Z.of_nat (count_on img) - Z.of_nat n * 15) mod 2 ^ 64).

(** ** [part_one] and [part_two] *)

(** Insertion into the [HashMap<u32, [TileRow; 4]>] of [part_one], kept as
    an association list in insertion order; the [HashMap]'s iteration
    order is unspecified, and the product computed from it is the same in
    every order. *)
Fixpoint assoc_insert (k : Z) (v : list Z) (l : list (Z * list Z)) : list (Z * list Z) :=
  match l with
  | [] => [(k, v)]
  | (k', v') :: l' => if Z.eqb k k' then (k, v) :: l' else (k', v') :: assoc_insert k v l'
  end.

Definition all_edges (data : list tile) : list (Z * list Z) :=
  foldl (fun m t => assoc_insert (id t) (edges t) m) [] data.

Definition other_edges (all : list (Z * list Z)) (i : Z) : list Z :=
  concat (map (fun p => if Z.eqb (fst p) i then [] else snd p ++ map flip (snd p)) all).

Definition non_fitting_edges (others es : list Z) : nat :=
  length (List.filter (fun e => negb (contains others e) && negb (contains others (flip e))) es).

Definition corners (all : list (Z * list Z)) : list Z :=
  flat_map (fun p => if (1 <? non_fitting_edges (other_edges all (fst p)) (snd p))%nat
                     then [fst p] else []) all.

(** [corners.iter().map(|num| *num as u64).product()], wrapping on [u64]. *)
Definition part_one (data : list tile) : option Z :=
  Some (fold_left (fun acc n => (acc * n) mod 2 ^ 64) (corners (all_edges data)) 1).

Definition is_square (image : grid) : bool :=
  forallb (fun r => (length r =? length image)%nat) image.

Definition part_two (data : list tile) : res Z :=
  let* tiles := match_puzzle data in
  let* image := form_image tiles in
  if is_square image then get_water_roughness_fuel loop_fuel image else Panic.

(** ** Parsing: [Tile::from_str] and [get_data] *)

(** Text is a [list ascii]; ["010"] is ['\n'] and ["013"] is ['\r']. *)
Definition nl : ascii := "010"%char.
Definition cr : ascii := "013"%char.

(** [str::split] on the two-character pattern [[a; b]]: the pieces between
    the non-overlapping occurrences found from the left, the last piece
    included even when empty.  [cur] is the current piece, reversed. *)
Fixpoint split_on2 (a b : ascii) (cur : list ascii) (s : list ascii) : list (list ascii) :=
  match s with
  | [] => [rev cur]
  | c :: s' =>
      if Ascii.eqb c a then
        match s' with
        | c' :: s'' =>
            if Ascii.eqb c' b then rev cur :: split_on2 a b [] s''
            else split_on2 a b (c :: cur) s'
        | [] => split_on2 a b (c :: cur) s'
        end
      else split_on2 a b (c :: cur) s'
  end.

(** [p] is a prefix of [s]: what follows it. *)
Fixpoint strip_prefix (p s : list ascii) : option (list ascii) :=
  match p, s with
  | [], _ => Some s
  | c :: p', c' :: s' => if Ascii.eqb c c' then strip_prefix p' s' else None
  | _ :: _, [] => None
  end.

(** [str::trim_start_matches(p)]: strips [p] from the front as often as it
    occurs there; an empty [p] strips nothing.  Each step removes a
    character, so [length s + 1] steps suffice. *)
Fixpoint trim_start_matches_fuel (fuel : nat) (p s : list ascii) : list ascii :=
  match fuel with
  | O => s
  | S f =>
      match p, strip_prefix p s with
      | _ :: _, Some s' => trim_start_matches_fuel f p s'
      | _, _ => s
      end
  end.

Definition trim_start_matches (p s : list ascii) : list ascii :=
  trim_start_matches_fuel (S (length s)) p s.

(** The decimal digits of [u32::from_str]: [checked_mul] by 10 and
    [checked_add] of the digit fail exactly when [acc * 10 + d] reaches
    [2^32]; any other character is an [InvalidDigit] error. *)
Fixpoint u32_digits (acc : Z) (s : list ascii) : option Z :=
  match s with
  | [] => Some acc
  | c :: s' =>
      let d := Z.of_nat (nat_of_ascii c) - 48 in
      if (0 <=? d) && (d <=? 9) then
        let acc' := acc * 10 + d in
        if acc' <? 2 ^ 32 then u32_digits acc' s' else None
      else None
  end.

(** [u32::from_str]: an empty string and a lone ['+'] are errors, a
    leading ['+'] is allowed. *)
Definition parse_u32 (s : list ascii) : option Z :=
  match s with
  | [] => None
  | [c] => if Ascii.eqb c "+"%char then None else u32_digits 0 s
  | c :: s' => if Ascii.eqb c "+"%char then u32_digits 0 s' else u32_digits 0 s
  end.

(** A [\r] at the end of a line read backwards is dropped. *)
Definition drop_cr (rcur : list ascii) : list ascii :=
  match rcur with
  | c :: rcur' => if Ascii.eqb c cr then rcur' else rcur
  | [] => []
  end.

(** [str::lines]: the pieces ended by ['\n'] (without it, and without a
    ['\r'] just before it), then the rest when it is not empty. *)
Fixpoint lines_aux (cur : list ascii) (s : list ascii) : list (list ascii) :=
  match s with
  | [] => match cur with [] => [] | _ => [rev cur] end
  | c :: s' =>
      if Ascii.eqb c nl then rev (drop_cr cur) :: lines_aux [] s'
      else lines_aux (c :: cur) s'
  end.

Definition lines (s : list ascii) : list (list ascii) := lines_aux [] s.

(** The [match ch] of [Tile::from_str]. *)
Definition parse_pixel_res (c : ascii) : res bool :=
  if Ascii.eqb c "#"%char then Ret true
  else if Ascii.eqb c "."%char then Ret false
  else Panic.

(** [Tile::from_str]: [s.split(":\n").next_tuple().unwrap()] takes the
    first two pieces (later ones are ignored) and panics when there is
    only one; the label's ["Tile "] prefixes are trimmed and the rest
    parsed as a [u32] with [unwrap]. *)
Definition tile_from_str (s : list ascii) : res tile :=
  match split_on2 ":"%char nl [] s with
  | label :: grid :: _ =>
      let* i := of_option (parse_u32 (trim_start_matches (list_ascii_of_string "Tile ") label)) in
      let* rs := mapM (mapM parse_pixel_res) (lines grid) in
      Ret (mk_tile i rs ∅ false)
  | _ => Panic
  end.

(** [get_data]: [input.split("\n\n").map(|s| s.parse()).collect()];
    [from_str] never returns [Err], so the first panic is the result. *)
Definition get_data (input : list ascii) : res (list tile) :=
  mapM tile_from_str (split_on2 nl nl [] input).

(** Rendering tiles as text, the inverse of the parser used to state its
    round trips (not a function of the program). *)
Definition digit_char (d : Z) : ascii := ascii_of_nat (48 + Z.to_nat d).

Fixpoint decimal_fuel (fuel : nat) (v : Z) : list ascii :=
  match fuel with
  | O => []
  | S f => if v <? 10 then [digit_char v] else decimal_fuel f (v / 10) ++ [digit_char (v mod 10)]
  end.

(** The decimal digits of [v >= 0], most significant first. *)
Definition decimal (v : Z) : list ascii := decimal_fuel (S (Z.to_nat (Z.log2 v))) v.

Definition render_pixel (b : bool) : ascii := if b then "#"%char else "."%char.

(** Pieces joined by a separator. *)
Fixpoint join_with (sep : list ascii) (ls : list (list ascii)) : list ascii :=
  match ls with
  | [] => []
  | [l] => l
  | l :: ls' => l ++ sep ++ join_with sep ls'
  end.

Definition render_tile (t : tile) : list ascii :=
  list_ascii_of_string "Tile " ++ decimal (id t) ++ [":"%char; nl]
  ++ join_with [nl] (map (map render_pixel) (rows t)).

Definition render_input (ts : list tile) : list ascii := join_with [nl; nl] (map render_tile ts).

(** A tile as [Tile::from_str] returns it: no neighbours, not fixed. *)
Definition fresh_tile (t : tile) : tile := mk_tile (id t) (rows t) ∅ false.

(** No occurrence of the two-character pattern [[a; b]]. *)
Fixpoint no_pair (a b : ascii) (l : list ascii) : bool :=
  match l with
  | c :: ((c' :: _) as l') => negb (Ascii.eqb c a && Ascii.eqb c' b) && no_pair a b l'
  | _ => true
  end.

(** Rows the parser reads back: not empty, and no ['\n'], ['\r'] or [':']. *)
Definition text_row_ok (r : list ascii) : Prop :=
  r <> [] /\ Forall (fun c => c <> nl /\ c <> cr /\ c <> ":"%char) r.

(** ** The example of [test_given_example] *)

(** The per-character map of [Tile::from_str]; other characters panic
    there and do not occur below. *)
Definition parse_pixel (c : ascii) : bool :=
  if Ascii.eqb c "#"%char then true else false.

Definition parse_row (s : string) : list bool := map parse_pixel (list_ascii_of_string s).

Definition new_tile (i : Z) (rs : list string) : tile :=
  mk_tile i (map parse_row rs) ∅ false.

Definition tile_2311 : tile :=
  new_tile 2311
    ["..##.#..#.";
     "##..#.....";
     "#...##..#.";
     "####.#...#";
     "##.##.###.";
     "##...#.###";
     ".#.#.#..##";
     "..#....#..";
     "###...#.#.";
     "..###..###"]%string.

Definition tile_1951 : tile :=
  new_tile 1951
    ["#.##...##.";
     "#.####...#";
     ".....#..##";
     "#...######";
     ".##.#....#";
     ".###.#####";
     "###.##.##.";
     ".###....#.";
     "..#.#..#.#";
     "#...##.#.."]%string.

Definition tile_1171 : tile :=
  new_tile 1171
    ["####...##.";
     "#..##.#..#";
     "##.#..#.#.";
     ".###.####.";
     "..###.####";
     ".##....##.";
     ".#...####.";
     "#.##.####.";
     "####..#...";
     ".....##..."]%string.

Definition tile_1427 : tile :=
  new_tile 1427
    ["###.##.#..";
     ".#..#.##..";
     ".#.##.#..#";
     "#.#.#.##.#";
     "....#...##";
     "...##..##.";
     "...#.#####";
     ".#.####.#.";
     "..#..###.#";
     "..##.#..#."]%string.

Definition tile_1489 : tile :=
  new_tile 1489
    ["##.#.#....";
     "..##...#..";
     ".##..##...";
     "..#...#...";
     "#####...#.";
     "#..#.#.#.#";
     "...#.#.#..";
     "##.#...##.";
     "..##.##.##";
     "###.##.#.."]%string.

Definition tile_2473 : tile :=
  new_tile 2473
    ["#....####.";
     "#..#.##...";
     "#.##..#...";
     "######.#.#";
     ".#...#.#.#";
     ".#########";
     ".###.#..#.";
     "########.#";
     "##...##.#.";
     "..###.#.#."]%string.

Definition tile_2971 : tile :=
  new_tile 2971
    ["..#.#....#";
     "#...###...";
     "#.#.###...";
     "##.##..#..";
     ".#####..##";
     ".#..####.#";
     "#..#.#..#.";
     "..####.###";
     "..#.#.###.";
     "...#.#.#.#"]%string.

Definition tile_2729 : tile :=
  new_tile 2729
    ["...#.#.#.#";
     "####.#....";
     "..#.#.....";
     "....#..#.#";
     ".##..##.#.";
     ".#.####...";
     "####.#.#..";
     "##.####...";
     "##..#.##..";
     "#.##...##."]%string.

Definition tile_3079 : tile :=
  new_tile 3079
    ["#.#.#####.";
     ".#..######";
     "..#.......";
     "######....";
     "####.#..#.";
     ".#...#.##.";
     "#.#####.##";
     "..#.###...";
     "..#.......";
     "..#.###..."]%string.

Definition example_tiles : list tile :=
  [tile_2311; tile_1951; tile_1171; tile_1427; tile_1489; tile_2473; tile_2971; tile_2729; tile_3079].

(** ** Auxiliary definitions for the statements *)

(** The four edges of a grid, by side. *)
Definition top_edge (g : grid) : Z := from_vec (nth 0 g []).
Definition right_edge (g : grid) : Z := snd (side_bits g (length g) 0 0 0).
Definition bottom_edge (g : grid) : Z := flip (from_vec (nth (length g - 1) g [])).
Definition left_edge (g : grid) : Z := fst (side_bits g (length g) 0 0 0).

(** An [n] by [n] pixel grid. *)
Definition square_grid (n : nat) (g : grid) : Prop :=
  length g = n /\ Forall (fun r => length r = n) g.

(** [k] quarter turns. *)
Fixpoint rotate_n (k : nat) (g : grid) : grid :=
  match k with O => g | S k' => rotate_n k' (rotate_pixels g) end.

(** A sequence of reorientations: [true] rotates, [false] mirrors. *)
Definition reorient (ops : list bool) (g : grid) : grid :=
  fold_left (fun h (b : bool) => if b then rotate_pixels h else flip_pixels h) ops g.

(** The edge signatures of a grid and their bit-reversals. *)
Definition signatures (g : grid) : list Z := grid_edges g ++ map flip (grid_edges g).

(** The corner test of the spec: an edge [e] of [t] is unmatched when no
    tile with another id has an edge equal to [e] or to its reversal,
    read either way. *)
Definition edge_matches (e : Z) (t' : tile) : bool :=
  existsb (fun e' => Z.eqb e e' || Z.eqb e (flip e') || Z.eqb (flip e) e'
                     || Z.eqb (flip e) (flip e')) (edges t').

Definition unmatched (data : list tile) (t : tile) (e : Z) : bool :=
  negb (existsb (fun t' => negb (Z.eqb (id t') (id t)) && edge_matches e t') data).

Definition is_corner (data : list tile) (t : tile) : bool :=
  (2 <=? length (List.filter (unmatched data t) (edges t)))%nat.

Definition corner_ids (data : list tile) : list Z := map id (List.filter (is_corner data) data).

Definition Z_prod (l : list Z) : Z := fold_right Z.mul 1 l.

(** A square layout of tiles: [cell L r c] is the tile in row [r] and
    column [c]; [layout_adj L r c] is the adjacency map a tile there has
    in a completed assembly (top 0, right 1, bottom 2, left 3). *)
Definition no_tile : tile := mk_tile 0 [] ∅ false.

Definition cell (L : list (list tile)) (r c : nat) : tile := nth c (nth r L []) no_tile.

Definition layout_adj (L : list (list tile)) (r c : nat) : gmap nat Z :=
  let k := length L in
  let m1 : gmap nat Z := if (0 <? r)%nat then {[0%nat := id (cell L (r - 1) c)]} else ∅ in
  let m2 := if (c + 1 <? k)%nat then <[1%nat := id (cell L r (c + 1))]> m1 else m1 in
  let m3 := if (r + 1 <? k)%nat then <[2%nat := id (cell L (r + 1) c)]> m2 else m2 in
  if (0 <? c)%nat then <[3%nat := id (cell L r (c - 1))]> m3 else m3.

(** A complete and consistent adjacency graph: whenever a tile [b] with
    another id has the reversal of side [i] of [a] among its edges, [a]
    records [b] on side [i], [b] has that signature on the facing side and
    records [a] there. *)
Definition adjacency_complete (ts : list tile) : bool :=
  forallb (fun a =>
    forallb (fun i =>
      let e := flip (edge_at a i) in
      forallb (fun b =>
        Z.eqb (id b) (id a) || negb (contains (edges b) e)
        || (bool_decide (adjacent a !! i = Some (id b))
            && Z.eqb (edge_at b (opposite i)) e
            && bool_decide (adjacent b !! opposite i = Some (id a)))) ts)
      (seq 0 4)) ts.

(** The example after [match_puzzle]. *)
Definition assembled_example : list tile :=
  match match_puzzle example_tiles with Ret ts => ts | _ => [] end.

Definition assembled_rows (i : Z) : grid :=
  match List.find (fun t => Z.eqb (id t) i) assembled_example with
  | Some t => rows t
  | None => []
  end.

(** The state of [match_puzzle]'s inner loop holds exactly the tiles [ts0]. *)
Definition state_ok (ts0 : list tile) (st : tile * list tile * list tile) : Prop :=
  let '(pt, s, d) := st in Permutation (pt :: s ++ d) ts0.

(** The composite image of the example. *)
Definition example_image : grid :=
  match (let* ts := match_puzzle example_tiles in form_image ts) with Ret img => img | _ => [] end.

(** A 2 by 2 layout of four tiles carrying their completed adjacency maps. *)
Definition tiny_layout : list (list tile) :=
  [[mk_tile 1 [] (<[2%nat := 3]> (<[1%nat := 2]> ∅)) true;
    mk_tile 2 [] (<[3%nat := 1]> (<[2%nat := 4]> ∅)) true];
   [mk_tile 3 [] (<[1%nat := 4]> {[0%nat := 1]}) true;
    mk_tile 4 [] (<[3%nat := 3]> {[0%nat := 2]}) true]].

(** [t] is a tile of [ts0], with the same id, whose pixels have been
    rotated and mirrored. *)
Definition reoriented_from (ts0 : list tile) (t : tile) : Prop :=
  exists t0 ops, In t0 ts0 /\ id t0 = id t /\ rows t = reorient ops (rows t0).

(** The invariant of [match_puzzle] on any input [ts0]: the processing
    tile, the processing stack and the done stack hold the ids of [ts0],
    reoriented tiles of [ts0], and only fixed tiles outside the stack. *)
Definition match_inv (ts0 : list tile) (st : tile * list tile * list tile) : Prop :=
  let '(pt, s, d) := st in
  Permutation (map id (pt :: s ++ d)) (map id ts0)
  /\ Forall (reoriented_from ts0) (pt :: s ++ d)
  /\ fixed pt = true /\ Forall (fun t => fixed t = true) d.

(** A grid without its outer ring of pixels, as [strip_border] leaves it. *)
Definition stripped (g : grid) : grid := map (fun r => removelast (tl r)) (removelast (tl g)).

(** The example's layout, as [arrange_tiles] builds it. *)
Definition example_layout : list (list tile) :=
  match arrange_tiles assembled_example with Ret g => g | _ => [] end.

(** Images for the sea-monster search: an empty 24 by 24 image, and one
    holding a single sea monster turned upside down. *)
Definition blank_image : grid := repeat (repeat false 24) 24.

Definition monster_image : grid :=
  map (fun r => map (fun c => existsb (fun d => (fst d =? r)%nat && (snd d =? c)%nat) sea_monster)
                     (seq 0 24)) (seq 0 24).

Definition upside_down_monster : grid := rotate_pixels (rotate_pixels monster_image).

(** An empty 5 by 5 image, too small for the search. *)
Definition small_blank_image : grid := repeat (repeat false 5) 5.

(** A tile as [Tile::from_str] builds it for [Tile::edges]: a [u32] id
    and a square grid of side at least 1. *)
Definition tile_wf (t : tile) : Prop :=
  0 <= id t < 2 ^ 32 /\ (0 < length (rows t))%nat /\ square_grid (length (rows t)) (rows t).

Definition tile_wfb (t : tile) : bool :=
  (0 <=? id t) && (id t <? 2 ^ 32) && (0 <? length (rows t))%nat && is_square (rows t).

(** The example tiles with ids raised by 4294000000, still [u32] values. *)
Definition big_id_tiles : list tile :=
  map (fun t => mk_tile (id t + 4294000000) (rows t) (adjacent t) (fixed t)) example_tiles.

(** ** Generic lemmas *)

Ltac nat_cases :=
  repeat match goal with
  | |- context [Nat.eqb ?a ?b] => destruct (Nat.eqb_spec a b)
  | |- context [Nat.ltb ?a ?b] => destruct (Nat.ltb_spec a b)
  | |- context [Nat.leb ?a ?b] => destruct (Nat.leb_spec a b)
  end.

Lemma bits_nat_inj (a b : Z) :
  (forall k : nat, Z.testbit a (Z.of_nat k) = Z.testbit b (Z.of_nat k)) -> a = b.
Proof.
  intros H. apply Z.bits_inj'. intros n Hn.
  rewrite <- (Z2Nat.id n Hn). apply H.
Qed.

Lemma shl1_small (i : nat) : (i < 16)%nat -> shl1 i = 2 ^ Z.of_nat i.
Proof.
  intros Hi. unfold shl1. rewrite Nat.mod_small by exact Hi.
  apply Z.shiftl_1_l.
Qed.

Lemma testbit_shl1 (i k : nat) :
  (i < 16)%nat -> Z.testbit (shl1 i) (Z.of_nat k) = (i =? k)%nat.
Proof.
  intros Hi. rewrite shl1_small by exact Hi.
  rewrite Z.pow2_bits_eqb by lia.
  destruct (Z.eqb_spec (Z.of_nat i) (Z.of_nat k)); nat_cases; lia.
Qed.

Lemma testbit_lor_shl1 (acc : Z) (i k : nat) :
  (i < 16)%nat ->
  Z.testbit (Z.lor acc (shl1 i)) (Z.of_nat k) = Z.testbit acc (Z.of_nat k) || (i =? k)%nat.
Proof. intros Hi. rewrite Z.lor_spec, testbit_shl1 by exact Hi. reflexivity. Qed.

Lemma testbit_zero (k : nat) : Z.testbit 0 (Z.of_nat k) = false.
Proof. apply Z.bits_0. Qed.

Lemma land_shl1_eqb (x : Z) (i : nat) :
  (i < 16)%nat -> negb (Z.land x (shl1 i) =? 0) = Z.testbit x (Z.of_nat i).
Proof.
  intros Hi.
  assert (E : Z.land x (shl1 i) = if Z.testbit x (Z.of_nat i) then shl1 i else 0).
  { apply bits_nat_inj. intros k.
    rewrite Z.land_spec, testbit_shl1 by exact Hi.
    destruct (Z.testbit x (Z.of_nat i)) eqn:Hb.
    - rewrite testbit_shl1 by exact Hi. nat_cases; subst; try rewrite Hb;
        auto using andb_false_r.
    - rewrite testbit_zero. nat_cases; subst; [rewrite Hb|]; auto using andb_false_r. }
  rewrite E. destruct (Z.testbit x (Z.of_nat i)); [|reflexivity].
  rewrite shl1_small by exact Hi.
  destruct (Z.eqb_spec (2 ^ Z.of_nat i) 0); [|reflexivity].
  pose proof (Z.pow_pos_nonneg 2 (Z.of_nat i)). lia.
Qed.

Lemma from_vec_aux_bits (ps : list bool) (i : nat) (acc : Z) (k : nat) :
  (i + length ps <= 16)%nat ->
  Z.testbit (from_vec_aux ps i acc) (Z.of_nat k) =
  Z.testbit acc (Z.of_nat k)
  || ((i <=? k) && (k <? i + length ps) && nth (k - i) ps false)%nat.
Proof.
  revert i acc. induction ps as [|p ps IH]; intros i acc Hlen; simpl in *.
  - nat_cases; simpl; auto using orb_false_r; lia.
  - rewrite IH by lia.
    assert (Hp : Z.testbit (if p then Z.lor acc (shl1 i) else acc) (Z.of_nat k) =
                 Z.testbit acc (Z.of_nat k) || (p && (i =? k)%nat)).
    { destruct p; simpl; [apply testbit_lor_shl1; lia | btauto]. }
    rewrite Hp.
    destruct (Nat.lt_total k i) as [Hlt|[Heq|Hgt]].
    + nat_cases; try lia. simpl. btauto.
    + subst k. rewrite Nat.sub_diag. nat_cases; try lia. simpl. btauto.
    + replace (k - i)%nat with (S (k - S i)) by lia.
      nat_cases; try lia; simpl; btauto.
Qed.

Lemma from_vec_bits (v : list bool) (k : nat) :
  (length v <= 16)%nat ->
  Z.testbit (from_vec v) (Z.of_nat k) =
  ((k <? length v) && nth (length v - 1 - k) v false)%nat.
Proof.
  intros Hv. unfold from_vec.
  rewrite from_vec_aux_bits by (rewrite length_rev; lia).
  rewrite testbit_zero, length_rev, Nat.sub_0_r. simpl.
  destruct (Nat.ltb_spec k (length v)); [|reflexivity].
  rewrite rev_nth by lia. do 2 f_equal. lia.
Qed.

Lemma flip_aux_bits (x : Z) (is : list nat) (new : Z) (k : nat) :
  Forall (fun i => i < 10)%nat is ->
  Z.testbit (flip_aux x is new) (Z.of_nat k) =
  Z.testbit new (Z.of_nat k)
  || existsb (fun i => Z.testbit x (Z.of_nat i) && (10 - 1 - i =? k)%nat) is.
Proof.
  revert new. induction is as [|i is IH]; intros new Hall; simpl.
  - auto using orb_false_r.
  - inversion Hall as [|? ? Hi Hrest]; subst.
    rewrite IH by exact Hrest.
    rewrite land_shl1_eqb by lia.
    destruct (Z.testbit x (Z.of_nat i)); simpl.
    + rewrite testbit_lor_shl1 by lia. btauto.
    + btauto.
Qed.

Lemma flip_bits (x : Z) (k : nat) :
  Z.testbit (flip x) (Z.of_nat k) = ((k <? 10)%nat && Z.testbit x (Z.of_nat (9 - k))).
Proof.
  unfold flip. rewrite flip_aux_bits.
  2: { apply List.Forall_forall. intros i Hi. apply in_seq in Hi. lia. }
  rewrite testbit_zero, orb_false_l.
  destruct (Nat.ltb_spec k 10).
  - do 10 (destruct k as [|k]; [simpl; btauto|]). lia.
  - rewrite andb_false_l.
    match goal with |- existsb ?f ?l = _ => destruct (existsb f l) eqn:E end; [|reflexivity].
    apply existsb_exists in E. destruct E as (i & Hi & Hb).
    apply in_seq in Hi. apply andb_true_iff in Hb. destruct Hb as [_ Hb].
    apply Nat.eqb_eq in Hb. lia.
Qed.

Lemma flip_high_bits (x : Z) (k : nat) :
  (10 <= k)%nat -> Z.testbit (flip x) (Z.of_nat k) = false.
Proof. intros Hk. rewrite flip_bits. nat_cases; [lia | reflexivity]. Qed.

(** [flip] twice gives back every value whose bits lie below position 10. *)
Lemma flip_flip_bits (x : Z) :
  (forall k : nat, (10 <= k)%nat -> Z.testbit x (Z.of_nat k) = false) ->
  flip (flip x) = x.
Proof.
  intros Hx. apply bits_nat_inj. intros k.
  rewrite !flip_bits. destruct (Nat.ltb_spec k 10); simpl.
  - destruct (Nat.ltb_spec (9 - k) 10); [|lia]. simpl. f_equal. lia.
  - symmetry. apply Hx. lia.
Qed.

Lemma flip_flip_flip (x : Z) : flip (flip (flip x)) = flip x.
Proof. apply flip_flip_bits. apply flip_high_bits. Qed.

Lemma side_bits_left (rs : list (list bool)) (len i : nat) (l r : Z) (k : nat) :
  (i + length rs <= 16)%nat ->
  Z.testbit (fst (side_bits rs len i l r)) (Z.of_nat k) =
  Z.testbit l (Z.of_nat k)
  || ((i <=? k) && (k <? i + length rs) && nth 0 (nth (k - i) rs []) false)%nat.
Proof.
  revert i l r. induction rs as [|row rs IH]; intros i l r Hlen; simpl in *.
  - nat_cases; simpl; auto using orb_false_r; lia.
  - rewrite IH by lia.
    assert (Hp : Z.testbit (if nth 0 row false then Z.lor l (shl1 i) else l) (Z.of_nat k) =
                 Z.testbit l (Z.of_nat k) || (nth 0 row false && (i =? k)%nat)).
    { destruct (nth 0 row false); simpl; [apply testbit_lor_shl1; lia | btauto]. }
    rewrite Hp.
    destruct (Nat.lt_total k i) as [Hlt|[Heq|Hgt]].
    + nat_cases; try lia. simpl. btauto.
    + subst k. rewrite Nat.sub_diag. nat_cases; try lia. simpl. btauto.
    + replace (k - i)%nat with (S (k - S i)) by lia.
      nat_cases; try lia; simpl; btauto.
Qed.

Lemma side_bits_right (rs : list (list bool)) (len i : nat) (l r : Z) (k : nat) :
  (len <= 16)%nat -> (i + length rs <= len)%nat ->
  Z.testbit (snd (side_bits rs len i l r)) (Z.of_nat k) =
  Z.testbit r (Z.of_nat k)
  || ((k <? len) && (i <=? len - 1 - k) && (len - 1 - k <? i + length rs)
      && nth (len - 1) (nth (len - 1 - k - i) rs []) false)%nat.
Proof.
  revert i l r. induction rs as [|row rs IH]; intros i l r H16 Hlen; simpl in *.
  - nat_cases; simpl; auto using orb_false_r; lia.
  - rewrite IH by lia.
    assert (Hp : Z.testbit (if nth (len - 1) row false
                            then Z.lor r (shl1 (len - 1 - i)) else r) (Z.of_nat k) =
                 Z.testbit r (Z.of_nat k)
                 || (nth (len - 1) row false && (len - 1 - i =? k)%nat)).
    { destruct (nth (len - 1) row false); simpl; [apply testbit_lor_shl1; lia | btauto]. }
    rewrite Hp.
    destruct (Nat.lt_total (len - 1 - k) i) as [Hlt|[Heq|Hgt]].
    + nat_cases; try lia; simpl; btauto.
    + rewrite Heq, Nat.sub_diag. nat_cases; try lia; simpl; btauto.
    + replace (len - 1 - k - i)%nat with (S (len - 1 - k - S i)) by lia.
      nat_cases; try lia; simpl; btauto.
Qed.

Lemma grid_edges_sides (g : grid) :
  grid_edges g = [top_edge g; right_edge g; bottom_edge g; left_edge g].
Proof.
  unfold grid_edges, top_edge, right_edge, bottom_edge, left_edge.
  destruct (side_bits g (length g) 0 0 0). reflexivity.
Qed.

(** ** Pixels of reoriented square grids *)

Lemma nth_map_seq {A} (f : nat -> A) (start len j : nat) (d : A) :
  (j < len)%nat -> nth j (map f (seq start len)) d = f (start + j)%nat.
Proof.
  intros Hj. rewrite (nth_indep _ d (f 0%nat)) by (rewrite length_map, length_seq; lia).
  rewrite map_nth, seq_nth by lia. reflexivity.
Qed.

Lemma square_first_row (n : nat) (g : grid) :
  (0 < n)%nat -> square_grid n g -> length (nth 0 g []) = n.
Proof.
  intros Hn [Hlen Hrows]. destruct g as [|r g]; simpl in *; [lia|].
  inversion Hrows; assumption.
Qed.

Lemma square_row (n : nat) (g : grid) (r : nat) :
  square_grid n g -> (r < n)%nat -> length (nth r g []) = n.
Proof.
  intros [Hlen Hrows] Hr. rewrite List.Forall_forall in Hrows.
  apply Hrows, nth_In. lia.
Qed.

Lemma rotate_square (n : nat) (g : grid) :
  (0 < n)%nat -> square_grid n g -> square_grid n (rotate_pixels g).
Proof.
  intros Hn Hg. unfold rotate_pixels. rewrite (square_first_row n g Hn Hg).
  split.
  - rewrite length_map, length_seq. reflexivity.
  - apply List.Forall_forall. intros row Hrow. apply in_map_iff in Hrow.
    destruct Hrow as (x & <- & _). rewrite length_map, length_seq. reflexivity.
Qed.

Lemma flip_square (n : nat) (g : grid) :
  square_grid n g -> square_grid n (flip_pixels g).
Proof.
  intros [Hlen Hrows]. unfold flip_pixels. split.
  - rewrite length_map. assumption.
  - apply List.Forall_map. eapply List.Forall_impl; [|exact Hrows].
    intros row Hr. rewrite length_rev. assumption.
Qed.

Lemma px_rotate (n : nat) (g : grid) (r c : nat) :
  square_grid n g -> (r < n)%nat -> (c < n)%nat ->
  px (rotate_pixels g) r c = px g (n - 1 - c) r.
Proof.
  intros Hg Hr Hc. unfold px at 1, rotate_pixels.
  rewrite (square_first_row n g) by (lia || assumption).
  rewrite nth_map_seq by lia. rewrite nth_map_seq by lia.
  f_equal. lia.
Qed.

Lemma px_flip (n : nat) (g : grid) (r c : nat) :
  square_grid n g -> (r < n)%nat -> (c < n)%nat ->
  px (flip_pixels g) r c = px g r (n - 1 - c).
Proof.
  intros Hg Hr Hc. unfold px, flip_pixels.
  rewrite (nth_indep _ [] (rev [])) by (rewrite length_map; destruct Hg; lia).
  rewrite map_nth. rewrite rev_nth by (rewrite (square_row n g r Hg Hr); lia).
  rewrite (square_row n g r Hg Hr). f_equal. lia.
Qed.

(** ** The edge signatures of a 10 by 10 grid, bit by bit *)

Section Edges10.
Variable g : grid.
Hypothesis Hg : square_grid 10 g.

Lemma top_bits (k : nat) :
  Z.testbit (top_edge g) (Z.of_nat k) = ((k <? 10)%nat && px g 0 (9 - k)).
Proof.
  unfold top_edge, px. rewrite from_vec_bits; rewrite (square_row 10 g 0 Hg) by lia.
  - reflexivity.
  - lia.
Qed.

Lemma right_bits (k : nat) :
  Z.testbit (right_edge g) (Z.of_nat k) = ((k <? 10)%nat && px g (9 - k) 9).
Proof.
  destruct Hg as [Hlen Hrows].
  unfold right_edge. rewrite side_bits_right by lia. rewrite testbit_zero, Hlen.
  simpl orb. nat_cases; try lia; simpl; try reflexivity.
  unfold px. rewrite Nat.sub_0_r. reflexivity.
Qed.

Lemma bottom_bits (k : nat) :
  Z.testbit (bottom_edge g) (Z.of_nat k) = ((k <? 10)%nat && px g 9 k).
Proof.
  unfold bottom_edge. rewrite flip_bits.
  destruct (Nat.ltb_spec k 10); [|reflexivity]. simpl.
  destruct Hg as [Hlen _]. rewrite Hlen. simpl Nat.sub.
  rewrite from_vec_bits; rewrite (square_row 10 g 9 Hg) by lia; [|lia].
  nat_cases; try lia. unfold px. simpl. f_equal. lia.
Qed.

Lemma left_bits (k : nat) :
  Z.testbit (left_edge g) (Z.of_nat k) = ((k <? 10)%nat && px g k 0).
Proof.
  destruct Hg as [Hlen Hrows].
  unfold left_edge. rewrite side_bits_left by lia. rewrite testbit_zero, Hlen.
  simpl orb. nat_cases; try lia; simpl; try reflexivity.
  unfold px. rewrite Nat.sub_0_r. reflexivity.
Qed.

End Edges10.

Ltac edge_bits Hs :=
  apply bits_nat_inj; intros k;
  repeat first [ rewrite flip_bits | (rewrite top_bits by Hs) | (rewrite right_bits by Hs)
               | (rewrite bottom_bits by Hs) | (rewrite left_bits by Hs) ];
  nat_cases; simpl; try reflexivity; try lia;
  repeat first [ (rewrite px_rotate with (n := 10%nat) by (Hs || lia))
               | (rewrite px_flip with (n := 10%nat) by (Hs || lia)) ];
  f_equal; lia.

Lemma rotate_edges (g : grid) :
  square_grid 10 g ->
  grid_edges (rotate_pixels g) = [left_edge g; top_edge g; right_edge g; bottom_edge g].
Proof.
  intros Hg. pose proof (rotate_square 10 g ltac:(lia) Hg) as HR.
  rewrite grid_edges_sides.
  repeat f_equal; edge_bits assumption.
Qed.

Lemma flip_edges (g : grid) :
  square_grid 10 g ->
  grid_edges (flip_pixels g) =
  [flip (top_edge g); flip (left_edge g); flip (bottom_edge g); flip (right_edge g)].
Proof.
  intros Hg. pose proof (flip_square 10 g Hg) as HF.
  rewrite grid_edges_sides.
  repeat f_equal; edge_bits assumption.
Qed.

Lemma edges_high_bits (g : grid) (e : Z) (k : nat) :
  square_grid 10 g -> In e (grid_edges g) -> (10 <= k)%nat ->
  Z.testbit e (Z.of_nat k) = false.
Proof.
  intros Hg He Hk. rewrite grid_edges_sides in He.
  destruct He as [<-|[<-|[<-|[<-|[]]]]];
    [rewrite top_bits | rewrite right_bits | rewrite bottom_bits | rewrite left_bits];
    try assumption; nat_cases; (lia || reflexivity).
Qed.

Lemma signatures_flip (g : grid) (e : Z) :
  square_grid 10 g -> In e (signatures g) -> In (flip e) (signatures g).
Proof.
  intros Hg He. unfold signatures in *. apply in_app_or in He.
  apply in_or_app. destruct He as [He|He].
  - right. apply in_map. exact He.
  - left. apply in_map_iff in He. destruct He as (e0 & <- & He0).
    rewrite flip_flip_bits; [exact He0|].
    intros k Hk. eapply edges_high_bits; eassumption.
Qed.

Lemma reorient_square (ops : list bool) (h : grid) :
  square_grid 10 h -> square_grid 10 (reorient ops h).
Proof.
  revert h. induction ops as [|b ops IH]; intros h Hh; simpl; [exact Hh|].
  apply IH. destruct b; [apply rotate_square; [lia|] | apply flip_square]; exact Hh.
Qed.

Lemma reorient_signatures (g : grid) (ops : list bool) (h : grid) :
  square_grid 10 g -> square_grid 10 h ->
  incl (grid_edges h) (signatures g) -> incl (grid_edges (reorient ops h)) (signatures g).
Proof.
  intros Hg. revert h. induction ops as [|b ops IH]; intros h Hh Hincl; simpl; [exact Hincl|].
  destruct b.
  - apply IH; [apply rotate_square; [lia | exact Hh]|].
    rewrite rotate_edges by exact Hh. rewrite grid_edges_sides in Hincl.
    intros e He. apply Hincl. simpl in *. tauto.
  - apply IH; [apply flip_square; exact Hh|].
    rewrite flip_edges by exact Hh. rewrite grid_edges_sides in Hincl.
    intros e He. simpl in He.
    destruct He as [<-|[<-|[<-|[<-|[]]]]]; apply signatures_flip; try exact Hg;
      apply Hincl; simpl; tauto.
Qed.

Lemma flip_involutive_10 (x : Z) : 0 <= x < 2 ^ 10 -> flip (flip x) = x.
Proof.
  intros Hx. apply flip_flip_bits. intros k Hk.
  destruct (Z.eq_dec x 0) as [->|Hnz]; [apply Z.bits_0|].
  apply Z.bits_above_log2; [lia|].
  apply Z.log2_lt_pow2; [lia|]. apply Z.lt_le_trans with (2 ^ 10); [lia|].
  apply Z.pow_le_mono_r; lia.
Qed.

Lemma flip_from_vec_rev_10 (v : list bool) :
  length v = 10%nat -> flip (from_vec v) = from_vec (rev v).
Proof.
  intros Hv. apply bits_nat_inj. intros k.
  rewrite flip_bits, !from_vec_bits by (rewrite ?length_rev; lia).
  rewrite length_rev, Hv. nat_cases; simpl; try reflexivity; try lia.
  rewrite rev_nth by lia. rewrite Hv. f_equal.
Qed.

(** ** Orienting a candidate tile *)

Lemma rotate_n_square (k : nat) (g : grid) :
  square_grid 10 g -> square_grid 10 (rotate_n k g).
Proof.
  revert g. induction k as [|k IH]; intros g Hg; simpl; [exact Hg|].
  apply IH, rotate_square; [lia | exact Hg].
Qed.

Lemma rotate_n_edges (g : grid) :
  square_grid 10 g ->
  grid_edges (rotate_n 1 g) = [left_edge g; top_edge g; right_edge g; bottom_edge g] /\
  grid_edges (rotate_n 2 g) = [bottom_edge g; left_edge g; top_edge g; right_edge g] /\
  grid_edges (rotate_n 3 g) = [right_edge g; bottom_edge g; left_edge g; top_edge g].
Proof.
  intros Hg. simpl.
  pose proof (rotate_square 10 g ltac:(lia) Hg) as H1.
  pose proof (rotate_square 10 _ ltac:(lia) H1) as H2.
  pose proof (rotate_edges g Hg) as E1.
  pose proof (rotate_edges _ H1) as E2.
  pose proof (rotate_edges _ H2) as E3.
  assert (F1 := E1). rewrite grid_edges_sides in F1. injection F1 as T1 R1 B1 L1.
  rewrite T1, R1, B1, L1 in E2.
  assert (F2 := E2). rewrite grid_edges_sides in F2. injection F2 as T2 R2 B2 L2.
  rewrite T2, R2, B2, L2 in E3.
  repeat split; assumption.
Qed.

Lemma edge_reachable (g : grid) (i : nat) (edge : Z) :
  square_grid 10 g -> (i < 4)%nat -> In edge (grid_edges g) ->
  exists k, (k <= 3)%nat /\ nth (opposite i) (grid_edges (rotate_n k g)) 0 = edge.
Proof.
  intros Hg Hi Hin.
  destruct (rotate_n_edges g Hg) as (E1 & E2 & E3).
  rewrite grid_edges_sides in Hin.
  destruct Hin as [<-|[<-|[<-|[<-|[]]]]];
  (destruct i as [|[|[|[|i]]]]; [| | | | lia]);
  first [ exists 0%nat; split; [lia | rewrite grid_edges_sides; reflexivity]
        | exists 1%nat; split; [lia | rewrite E1; reflexivity]
        | exists 2%nat; split; [lia | rewrite E2; reflexivity]
        | exists 3%nat; split; [lia | rewrite E3; reflexivity] ].
Qed.

Lemma set_rows_rows (m : tile) : set_rows m (rows m) = m.
Proof. destruct m; reflexivity. Qed.

Lemma rotate_until_spec (i : nat) (edge : Z) (n : nat) :
  forall (fuel : nat) (m : tile),
  (n < fuel)%nat -> fixed m = false -> square_grid 10 (rows m) ->
  edge_at (set_rows m (rotate_n n (rows m))) (opposite i) = edge ->
  exists k, (k <= n)%nat /\
    rotate_until fuel i edge m = Ret (set_rows m (rotate_n k (rows m))) /\
    edge_at (set_rows m (rotate_n k (rows m))) (opposite i) = edge.
Proof.
  induction n as [|n IH]; intros fuel m Hf Hfix Hsq Hn;
    (destruct fuel as [|f]; [lia|]); simpl.
  - exists 0%nat. simpl in *. rewrite set_rows_rows in *.
    rewrite Hn, Z.eqb_refl. split; [lia | split; reflexivity].
  - destruct (Z.eqb_spec (edge_at m (opposite i)) edge) as [E|E].
    + exists 0%nat. simpl. rewrite set_rows_rows. split; [lia | split; [reflexivity | exact E]].
    + unfold tile_rotate. rewrite Hfix. simpl.
      destruct (IH f (set_rows m (rotate_pixels (rows m)))) as (k & Hk & Hrun & Hedge);
        try (simpl; assumption || lia).
      * apply rotate_square; [lia | exact Hsq].
      * exists (S k). split; [lia|]. simpl in *. split; assumption.
Qed.

Lemma contains_In (es : list Z) (e : Z) : contains es e = true <-> In e es.
Proof.
  unfold contains. rewrite existsb_exists. split.
  - intros (x & Hx & Heq). apply Z.eqb_eq in Heq. subst. exact Hx.
  - intros Hin. exists e. split; [exact Hin | apply Z.eqb_refl].
Qed.

(** ** Adjacent edges *)

Lemma right_left_columns (a b : grid) :
  square_grid 10 a -> square_grid 10 b ->
  flip (right_edge a) = left_edge b <-> (forall r, (r < 10)%nat -> px a r 9 = px b r 0).
Proof.
  intros Ha Hb. split.
  - intros E r Hr. assert (Hbit := f_equal (fun z => Z.testbit z (Z.of_nat r)) E).
    simpl in Hbit. rewrite flip_bits, right_bits, left_bits in Hbit by assumption.
    rewrite (proj2 (Nat.ltb_lt r 10) Hr), (proj2 (Nat.ltb_lt (9 - r) 10) ltac:(lia)) in Hbit.
    simpl in Hbit. rewrite <- Hbit. f_equal. lia.
  - intros H. apply bits_nat_inj. intros k.
    rewrite flip_bits, right_bits, left_bits by assumption.
    nat_cases; simpl; try reflexivity; try lia.
    rewrite <- H by lia. f_equal. lia.
Qed.

Lemma right_edge_flip_flip (a : grid) :
  square_grid 10 a -> flip (flip (right_edge a)) = right_edge a.
Proof.
  intros Ha. apply flip_flip_bits. intros k Hk.
  rewrite right_bits by exact Ha. nat_cases; [lia | reflexivity].
Qed.

(** ** Square grids and the loop of [get_water_roughness] *)

Lemma grid_ext (n : nat) (g h : grid) :
  square_grid n g -> square_grid n h ->
  (forall r c, (r < n)%nat -> (c < n)%nat -> px g r c = px h r c) -> g = h.
Proof.
  intros Hg Hh H. pose proof Hg as [Hlg _]. pose proof Hh as [Hlh _].
  apply (nth_ext _ _ [] []); [lia|].
  intros r Hr. rewrite Hlg in Hr.
  apply (nth_ext _ _ false false).
  - rewrite (square_row n g r Hg Hr), (square_row n h r Hh Hr). reflexivity.
  - intros c Hc. rewrite (square_row n g r Hg Hr) in Hc. apply H; assumption.
Qed.

(** Rotating and then mirroring transposes a square grid: twice gives it back. *)
Lemma flip_rotate_twice (n : nat) (g : grid) :
  (0 < n)%nat -> square_grid n g ->
  flip_pixels (rotate_pixels (flip_pixels (rotate_pixels g))) = g.
Proof.
  intros Hn Hg.
  pose proof (rotate_square n g Hn Hg) as H1.
  pose proof (flip_square n _ H1) as H2.
  pose proof (rotate_square n _ Hn H2) as H3.
  pose proof (flip_square n _ H3) as H4.
  apply (grid_ext n); [exact H4 | exact Hg |].
  intros r c Hr Hc.
  rewrite (px_flip n) by (assumption || lia).
  rewrite (px_rotate n) by (assumption || lia).
  rewrite (px_flip n) by (assumption || lia).
  rewrite (px_rotate n) by (assumption || lia).
  f_equal; lia.
Qed.

Lemma roughness_loop_step (f : nat) (img : grid) :
  find_number_sea_monsters (rotate_pixels img) = Ret 0%nat ->
  find_number_sea_monsters (flip_pixels (rotate_pixels img)) = Ret 0%nat ->
  roughness_loop (S f) img 0 = roughness_loop f (flip_pixels (rotate_pixels img)) 0.
Proof. intros H1 H2. simpl. unfold roughness_pass. rewrite H1. simpl. rewrite H2. reflexivity. Qed.

(** When the image and the three orientations the loop reaches from it
    (rotated, rotated and mirrored, rotated twice around a mirror) hold no
    sea monster, the loop returns to the image after two passes and never
    exits. *)
Lemma water_roughness_cycles (n : nat) (g : grid) :
  (0 < n)%nat -> square_grid n g ->
  find_number_sea_monsters g = Ret 0%nat ->
  find_number_sea_monsters (rotate_pixels g) = Ret 0%nat ->
  find_number_sea_monsters (flip_pixels (rotate_pixels g)) = Ret 0%nat ->
  find_number_sea_monsters (rotate_pixels (flip_pixels (rotate_pixels g))) = Ret 0%nat ->
  forall fuel, get_water_roughness_fuel fuel g = NoExit.
Proof.
  intros Hn Hg H0 H1 H2 H3.
  assert (Hback := flip_rotate_twice n g Hn Hg).
  assert (Hboth : forall fuel, roughness_loop fuel g 0 = NoExit /\
                  roughness_loop fuel (flip_pixels (rotate_pixels g)) 0 = NoExit).
  { induction fuel as [|f [IH1 IH2]]; [split; reflexivity|]. split.
    - rewrite roughness_loop_step by assumption. exact IH2.
    - rewrite roughness_loop_step by (rewrite ?Hback; assumption).
      rewrite Hback. exact IH1. }
  intros fuel. unfold get_water_roughness_fuel. rewrite H0. simpl.
  rewrite (proj1 (Hboth fuel)). reflexivity.
Qed.

(** ** [part_one] *)

Lemma assoc_insert_new (k : Z) (v : list Z) (l : list (Z * list Z)) :
  ~ In k (map fst l) -> assoc_insert k v l = l ++ [(k, v)].
Proof.
  induction l as [|[k' v'] l IH]; intros Hk; simpl; [reflexivity|].
  simpl in Hk. destruct (Z.eqb_spec k k'); [subst; tauto|].
  rewrite IH by tauto. reflexivity.
Qed.

Lemma all_edges_distinct (data : list tile) :
  NoDup (map id data) -> all_edges data = map (fun t => (id t, edges t)) data.
Proof.
  unfold all_edges.
  assert (G : forall acc, NoDup (map fst acc ++ map id data) ->
              foldl (fun m t => assoc_insert (id t) (edges t) m) acc data =
              acc ++ map (fun t => (id t, edges t)) data).
  { induction data as [|t data IH]; intros acc Hnd; simpl; [rewrite app_nil_r; reflexivity|].
    rewrite assoc_insert_new.
    - rewrite IH; [rewrite <- app_assoc; reflexivity|].
      rewrite map_app, <- app_assoc. exact Hnd.
    - intros Hin. apply NoDup_app in Hnd. destruct Hnd as (_ & Hdis & _).
      apply (Hdis (id t)); [apply list_elem_of_In; exact Hin | left]. }
  intros Hnd. apply (G []). exact Hnd.
Qed.

Lemma contains_app (l1 l2 : list Z) (x : Z) :
  contains (l1 ++ l2) x = contains l1 x || contains l2 x.
Proof. unfold contains. apply existsb_app. Qed.

Lemma contains_other_edges (data : list tile) (i x : Z) :
  contains (other_edges (map (fun t => (id t, edges t)) data) i) x =
  existsb (fun t' => negb (Z.eqb (id t') i)
                     && (contains (edges t') x || contains (map flip (edges t')) x)) data.
Proof.
  induction data as [|t data IH]; [reflexivity|].
  unfold other_edges in *. simpl. rewrite contains_app, IH.
  destruct (Z.eqb (id t) i); simpl; [reflexivity|].
  rewrite contains_app. reflexivity.
Qed.

Lemma contains_four_ways (es : list Z) (e : Z) :
  contains es e || contains (map flip es) e
  || (contains es (flip e) || contains (map flip es) (flip e)) =
  existsb (fun e' => Z.eqb e e' || Z.eqb e (flip e') || Z.eqb (flip e) e'
                     || Z.eqb (flip e) (flip e')) es.
Proof.
  induction es as [|x es IH]; [reflexivity|].
  unfold contains in *. simpl. rewrite <- IH. btauto.
Qed.

Lemma existsb_orb {A} (f g : A -> bool) (l : list A) :
  existsb f l || existsb g l = existsb (fun x => f x || g x) l.
Proof. induction l as [|x l IH]; simpl; [reflexivity|]. rewrite <- IH. btauto. Qed.

Lemma existsb_ext' {A} (f g : A -> bool) (l : list A) :
  (forall x, f x = g x) -> existsb f l = existsb g l.
Proof. intros H. induction l as [|x l IH]; simpl; [reflexivity|]. rewrite H, IH. reflexivity. Qed.

Lemma non_fitting_unmatched (data : list tile) (t : tile) :
  non_fitting_edges (other_edges (map (fun t => (id t, edges t)) data) (id t)) (edges t) =
  length (List.filter (unmatched data t) (edges t)).
Proof.
  unfold non_fitting_edges. f_equal. apply filter_ext. intros e.
  rewrite !contains_other_edges. unfold unmatched.
  rewrite <- negb_orb, existsb_orb. f_equal.
  apply existsb_ext'. intros t'. unfold edge_matches.
  rewrite <- contains_four_ways. btauto.
Qed.

Lemma fold_mul_mod (M : Z) (l : list Z) (a : Z) :
  0 < M -> 0 <= a < M ->
  fold_left (fun acc n => (acc * n) mod M) l a = (a * Z_prod l) mod M.
Proof.
  intros HM. revert a. induction l as [|x l IH]; intros a Ha; simpl.
  - rewrite Z.mul_1_r, Z.mod_small by lia. reflexivity.
  - rewrite IH by (apply Z.mod_pos_bound; lia).
    rewrite Z.mul_mod_idemp_l by lia. f_equal. ring.
Qed.

Lemma corners_distinct (data : list tile) :
  NoDup (map id data) -> corners (all_edges data) = corner_ids data.
Proof.
  intros Hnd. rewrite all_edges_distinct by exact Hnd. unfold corners, corner_ids.
  set (all := map (fun t => (id t, edges t)) data).
  assert (G : forall l,
    flat_map (fun p => if (1 <? non_fitting_edges (other_edges all (fst p)) (snd p))%nat
                       then [fst p] else []) (map (fun t => (id t, edges t)) l) =
    map id (List.filter (is_corner data) l)).
  { induction l as [|t l IH]; [reflexivity|].
    simpl. rewrite IH. unfold all. rewrite non_fitting_unmatched. unfold is_corner, Nat.ltb.
    destruct (2 <=? length (List.filter (unmatched data t) (edges t)))%nat; reflexivity. }
  apply G.
Qed.

Lemma existsb_perm {A} (f : A -> bool) (l l' : list A) :
  Permutation l l' -> existsb f l = existsb f l'.
Proof.
  induction 1; simpl; try reflexivity; try congruence. btauto.
Qed.

Lemma is_corner_perm (data data' : list tile) (t : tile) :
  Permutation data data' -> is_corner data t = is_corner data' t.
Proof.
  intros Hp. unfold is_corner.
  rewrite (filter_ext (unmatched data t) (unmatched data' t)); [reflexivity|].
  intros e. unfold unmatched. f_equal. apply existsb_perm. exact Hp.
Qed.

Lemma filter_perm {A} (f : A -> bool) (l l' : list A) :
  Permutation l l' -> Permutation (List.filter f l) (List.filter f l').
Proof.
  induction 1; simpl.
  - constructor.
  - destruct (f x); auto.
  - destruct (f x), (f y); auto using perm_swap.
  - eauto using Permutation_trans.
Qed.

Lemma Z_prod_perm (l l' : list Z) : Permutation l l' -> Z_prod l = Z_prod l'.
Proof. induction 1; simpl; try congruence; ring. Qed.

(** ** [arrange_tiles] on a square layout *)

Lemma id_map_notin (l : list tile) (m : gmap Z tile) (key : Z) :
  ~ In key (map id l) -> foldl (fun m t => <[id t := t]> m) m l !! key = m !! key.
Proof.
  revert m. induction l as [|t l IH]; intros m Hk; simpl in *; [reflexivity|].
  rewrite IH by tauto. rewrite lookup_insert_ne; [reflexivity|]. intros E. apply Hk. left. exact E.
Qed.

Lemma id_map_lookup (l : list tile) (t : tile) :
  NoDup (map id l) -> In t l -> id_map l !! id t = Some t.
Proof.
  unfold id_map. generalize (∅ : gmap Z tile). revert t.
  induction l as [|x l IH]; intros t m Hnd Hin; simpl in *; [contradiction|].
  inversion Hnd as [|? ? Hx Hnd']; subst.
  destruct Hin as [<-|Hin].
  - rewrite id_map_notin by (intros H; apply Hx, list_elem_of_In; exact H).
    apply lookup_insert_eq.
  - apply IH; assumption.
Qed.

Lemma skipn_nth_cons {A} (l : list A) (c : nat) (d : A) :
  (c < length l)%nat -> skipn c l = nth c l d :: skipn (S c) l.
Proof.
  revert c. induction l as [|x l IH]; intros c Hc; simpl in *; [lia|].
  destruct c as [|c]; [reflexivity|]. simpl. apply IH. lia.
Qed.

Section Layout.
Variable k : nat.
Variable L : list (list tile).
Variable ts : list tile.
Hypothesis Hk : (2 <= k)%nat.
Hypothesis HL : length L = k.
Hypothesis Hrows : Forall (fun row => length row = k) L.
Hypothesis Hnd : NoDup (map id (concat L)).
Hypothesis Hperm : Permutation ts (concat L).
Hypothesis Hadj : forall r c, (r < k)%nat -> (c < k)%nat -> adjacent (cell L r c) = layout_adj L r c.

Lemma layout_row_length (r : nat) : (r < k)%nat -> length (nth r L []) = k.
Proof.
  intros Hr. rewrite List.Forall_forall in Hrows. apply Hrows, nth_In. lia.
Qed.

Lemma in_layout (t : tile) :
  In t ts <-> exists r c, (r < k)%nat /\ (c < k)%nat /\ t = cell L r c.
Proof.
  split.
  - intros Hin. apply (Permutation_in _ Hperm) in Hin.
    apply in_concat in Hin. destruct Hin as (row & Hrow & Ht).
    apply (In_nth _ _ []) in Hrow. destruct Hrow as (r & Hr & <-).
    apply (In_nth _ _ no_tile) in Ht. destruct Ht as (c & Hc & <-).
    rewrite HL in Hr. rewrite layout_row_length in Hc by exact Hr.
    exists r, c. auto.
  - intros (r & c & Hr & Hc & ->). apply (Permutation_in _ (Permutation_sym Hperm)).
    apply in_concat. exists (nth r L []). split.
    + apply nth_In. lia.
    + apply nth_In. rewrite layout_row_length by exact Hr. exact Hc.
Qed.

Lemma nodup_ts : NoDup (map id ts).
Proof.
  apply NoDup_ListNoDup. eapply Permutation_NoDup; [|apply NoDup_ListNoDup; exact Hnd].
  apply Permutation_map, Permutation_sym, Hperm.
Qed.

Lemma cell_lookup (r c : nat) :
  (r < k)%nat -> (c < k)%nat -> id_map ts !! id (cell L r c) = Some (cell L r c).
Proof.
  intros Hr Hc. apply id_map_lookup; [apply nodup_ts|].
  apply in_layout. exists r, c. auto.
Qed.

Lemma adj_right (r c : nat) :
  (r < k)%nat -> (c < k)%nat ->
  adjacent (cell L r c) !! 1%nat =
  if (c + 1 <? k)%nat then Some (id (cell L r (c + 1))) else None.
Proof.
  intros Hr Hc. rewrite Hadj by assumption. unfold layout_adj. rewrite HL.
  repeat case_match; simplify_map_eq; reflexivity.
Qed.

Lemma adj_down (r c : nat) :
  (r < k)%nat -> (c < k)%nat ->
  adjacent (cell L r c) !! 2%nat =
  if (r + 1 <? k)%nat then Some (id (cell L (r + 1) c)) else None.
Proof.
  intros Hr Hc. rewrite Hadj by assumption. unfold layout_adj. rewrite HL.
  repeat case_match; simplify_map_eq; reflexivity.
Qed.

Lemma top_left_cell (r c : nat) :
  (r < k)%nat -> (c < k)%nat -> is_top_left (cell L r c) = (r =? 0)%nat && (c =? 0)%nat.
Proof.
  intros Hr Hc. unfold is_top_left, has_key. rewrite Hadj by assumption.
  unfold layout_adj. rewrite HL.
  destruct r as [|r]; destruct c as [|c]; simpl;
    nat_cases; simplify_map_eq; try reflexivity; try lia.
Qed.

Lemma find_top_left : List.find is_top_left ts = Some (cell L 0 0).
Proof.
  destruct (List.find is_top_left ts) as [x|] eqn:E.
  - apply find_some in E. destruct E as [Hin Hx].
    apply in_layout in Hin. destruct Hin as (r & c & Hr & Hc & ->).
    rewrite top_left_cell in Hx by assumption.
    apply andb_true_iff in Hx. destruct Hx as [Hr0 Hc0].
    apply Nat.eqb_eq in Hr0, Hc0. subst. reflexivity.
  - exfalso. assert (Hin : In (cell L 0 0) ts) by (apply in_layout; exists 0%nat, 0%nat; split; [lia | split; [lia | reflexivity]]).
    apply (find_none _ _ E) in Hin. rewrite top_left_cell in Hin by lia. discriminate.
Qed.

Lemma build_row_layout (r : nat) :
  (r < k)%nat ->
  forall fuel c, (c < k)%nat -> (k - 1 - c < fuel)%nat ->
  build_row fuel (id_map ts) (cell L r c) = Ret (skipn c (nth r L [])).
Proof.
  intros Hr fuel. induction fuel as [|f IH]; intros c Hc Hf; [lia|].
  simpl. rewrite adj_right by assumption.
  rewrite (skipn_nth_cons _ c no_tile) by (rewrite layout_row_length; assumption).
  destruct (Nat.ltb_spec (c + 1) k).
  - rewrite cell_lookup by (assumption || lia). simpl.
    rewrite IH by lia. simpl. replace (c + 1)%nat with (S c) by lia. reflexivity.
  - replace (S c) with (length (nth r L [])) by (rewrite layout_row_length; lia).
    rewrite skipn_all. reflexivity.
Qed.

Lemma build_grid_layout (row_fuel : nat) :
  (k <= row_fuel)%nat ->
  forall fuel r, (r < k)%nat -> (k - 1 - r < fuel)%nat ->
  build_grid fuel row_fuel (id_map ts) (cell L r 0) = Ret (skipn r L).
Proof.
  intros Hrf fuel. induction fuel as [|f IH]; intros r Hr Hf; [lia|].
  simpl. rewrite build_row_layout by lia. simpl. rewrite adj_down by lia.
  rewrite (skipn_nth_cons _ r []) by lia.
  destruct (Nat.ltb_spec (r + 1) k).
  - rewrite cell_lookup by lia. simpl.
    rewrite IH by lia. simpl. replace (r + 1)%nat with (S r) by lia. reflexivity.
  - replace (S r) with (length L) by lia. rewrite skipn_all. reflexivity.
Qed.

Lemma length_ts : length ts = (k * k)%nat.
Proof.
  rewrite (Permutation_length Hperm), <- HL at 1.
  clear -Hrows. induction Hrows as [|row L' Hrow HF IH]; simpl; [lia|].
  rewrite length_app, Hrow, IH by exact HF. lia.
Qed.

Lemma arrange_layout : arrange_tiles ts = Ret L.
Proof.
  unfold arrange_tiles. rewrite find_top_left. cbn [res_bind of_option].
  rewrite build_grid_layout; [reflexivity | | lia | ]; rewrite length_ts; nia.
Qed.

End Layout.

(** ** [match_puzzle] on an assembled tile set *)

Lemma vec_pop_some {A} (l l' : list A) (x : A) :
  vec_pop l = Some (x, l') -> l = l' ++ [x].
Proof.
  unfold vec_pop. destruct (rev l) as [|y r] eqn:E; [discriminate|].
  intros H. injection H as <- <-. rewrite <- (rev_involutive l), E. reflexivity.
Qed.

Lemma vec_pop_none {A} (l : list A) : vec_pop l = None -> l = [].
Proof.
  unfold vec_pop. destruct (rev l) as [|y r] eqn:E; [|discriminate].
  intros _. rewrite <- (rev_involutive l), E. reflexivity.
Qed.

Lemma position_remove {A} (p : A -> bool) (l : list A) (idx : nat) :
  position p l = Some idx ->
  exists x l', vec_remove idx l = Ret (x, l') /\ p x = true /\ Permutation l (x :: l').
Proof.
  revert idx. induction l as [|y l IH]; intros idx Hpos; simpl in Hpos; [discriminate|].
  destruct (p y) eqn:Hy.
  - injection Hpos as <-. exists y, l. auto.
  - destruct (position p l) as [j|] eqn:Hj; simpl in Hpos; [|discriminate].
    injection Hpos as <-. destruct (IH j eq_refl) as (x & l' & Hrem & Hx & Hperm).
    exists x, (y :: l'). simpl. rewrite Hrem. simpl. split; [reflexivity|]. split; [exact Hx|].
    eapply Permutation_trans; [apply perm_skip, Hperm | apply perm_swap].
Qed.

Lemma set_adjacent_same (t : tile) : set_adjacent t (adjacent t) = t.
Proof. destruct t; reflexivity. Qed.

Lemma set_fixed_same (t : tile) : fixed t = true -> set_fixed t true = t.
Proof. destruct t; simpl; intros ->; reflexivity. Qed.

Lemma edges_four (t : tile) :
  map flip (edges t) =
  [flip (edge_at t 0); flip (edge_at t 1); flip (edge_at t 2); flip (edge_at t 3)].
Proof. unfold edge_at, edges. rewrite grid_edges_sides. reflexivity. Qed.

Section Idempotence.
Variable ts0 : list tile.
Hypothesis Hfix : Forall (fun t => fixed t = true) ts0.
Hypothesis Hnd : NoDup (map id ts0).
Hypothesis Hcomp : adjacency_complete ts0 = true.

Lemma complete_use (a b : tile) (i : nat) :
  In a ts0 -> In b ts0 -> id b <> id a -> (i < 4)%nat ->
  contains (edges b) (flip (edge_at a i)) = true ->
  adjacent a !! i = Some (id b) /\ edge_at b (opposite i) = flip (edge_at a i)
  /\ adjacent b !! opposite i = Some (id a).
Proof.
  intros Ha Hb Hid Hi Hc. unfold adjacency_complete in Hcomp.
  rewrite forallb_forall in Hcomp. specialize (Hcomp a Ha).
  rewrite forallb_forall in Hcomp. specialize (Hcomp i ltac:(apply in_seq; lia)).
  rewrite forallb_forall in Hcomp. specialize (Hcomp b Hb). simpl in Hcomp.
  rewrite Hc in Hcomp. destruct (Z.eqb_spec (id b) (id a)); [contradiction|].
  simpl in Hcomp. apply andb_true_iff in Hcomp. destruct Hcomp as [H12 H3].
  apply andb_true_iff in H12. destruct H12 as [H1 H2].
  apply bool_decide_eq_true in H1, H3. apply Z.eqb_eq in H2. auto.
Qed.

Lemma match_edge_ok (i : nat) (pt : tile) (s d : list tile) :
  (i < 4)%nat -> state_ok ts0 (pt, s, d) ->
  exists s' d', match_edge i (flip (edge_at pt i)) (pt, s, d) = Ret (pt, s', d')
    /\ state_ok ts0 (pt, s', d') /\ (length s' <= length s)%nat.
Proof.
  intros Hi Hok. simpl in Hok. unfold match_edge.
  destruct (position (candidate (flip (edge_at pt i))) s) as [idx|] eqn:Hpos.
  2: { exists s, d. auto. }
  destruct (position_remove _ _ _ Hpos) as (x & s1 & Hrem & Hcand & Hperm).
  rewrite Hrem. cbn [res_bind].
  assert (Hpt : In pt ts0) by (apply (Permutation_in _ Hok); left; reflexivity).
  assert (Hx : In x ts0).
  { apply (Permutation_in _ Hok). right. apply in_or_app. left.
    apply (Permutation_in _ (Permutation_sym Hperm)). left. reflexivity. }
  assert (Hxfix : fixed x = true) by (rewrite List.Forall_forall in Hfix; apply Hfix, Hx).
  assert (Hid : id x <> id pt).
  { intros E. apply NoDup_ListNoDup in Hnd.
    assert (Hnd' : List.NoDup (map id (pt :: s ++ d))).
    { eapply Permutation_NoDup; [|exact Hnd]. apply Permutation_map, Permutation_sym, Hok. }
    simpl in Hnd'. inversion Hnd' as [|? ? Hnot _]. apply Hnot.
    rewrite <- E. apply in_map, in_or_app. left.
    apply (Permutation_in _ (Permutation_sym Hperm)). left. reflexivity. }
  unfold candidate in Hcand. rewrite Hxfix, andb_false_r, orb_false_r in Hcand.
  destruct (complete_use pt x i Hpt Hx Hid Hi Hcand) as (Ha & He & Hb).
  rewrite Hxfix. cbn [res_bind]. rewrite He, Z.eqb_refl. simpl negb. cbv iota.
  rewrite (insert_id _ _ _ Ha), (insert_id _ _ _ Hb), !set_adjacent_same.
  assert (Hlen : length s = S (length s1)) by (rewrite (Permutation_length Hperm); reflexivity).
  destruct (3 <? size (adjacent x))%nat.
  - exists s1, (d ++ [x]). split; [reflexivity|]. split; [|lia]. simpl.
    eapply Permutation_trans; [|exact Hok]. apply perm_skip.
    rewrite Hperm. solve_Permutation.
  - exists (s1 ++ [x]), d. split; [reflexivity|]. split.
    + simpl. eapply Permutation_trans; [|exact Hok]. apply perm_skip.
      rewrite Hperm. solve_Permutation.
    + rewrite length_app. simpl. lia.
Qed.

Lemma match_edges_ok (pt : tile) (s d : list tile) :
  state_ok ts0 (pt, s, d) ->
  exists s' d', match_edges (map flip (edges pt)) 0 (pt, s, d) = Ret (pt, s', d')
    /\ state_ok ts0 (pt, s', d') /\ (length s' <= length s)%nat.
Proof.
  intros H0. rewrite edges_four. cbn [match_edges].
  destruct (match_edge_ok 0 pt s d ltac:(lia) H0) as (s1 & d1 & E1 & H1 & L1).
  rewrite E1. cbn [res_bind].
  destruct (match_edge_ok 1 pt s1 d1 ltac:(lia) H1) as (s2 & d2 & E2 & H2 & L2).
  rewrite E2. cbn [res_bind].
  destruct (match_edge_ok 2 pt s2 d2 ltac:(lia) H2) as (s3 & d3 & E3 & H3 & L3).
  rewrite E3. cbn [res_bind].
  destruct (match_edge_ok 3 pt s3 d3 ltac:(lia) H3) as (s4 & d4 & E4 & H4 & L4).
  rewrite E4. cbn [res_bind].
  exists s4, d4. split; [reflexivity|]. split; [exact H4 | lia].
Qed.

Lemma match_loop_ok (fuel : nat) :
  forall s d, (length s < fuel)%nat -> Permutation (s ++ d) ts0 ->
  exists d', match_loop fuel s d = Ret d' /\ Permutation d' ts0.
Proof.
  induction fuel as [|f IH]; intros s d Hf Hp; [lia|].
  simpl. destruct (vec_pop s) as [[pt0 s1]|] eqn:Hpop.
  - apply vec_pop_some in Hpop. subst s.
    assert (Hpt : In pt0 ts0).
    { apply (Permutation_in _ Hp). apply in_or_app. left. apply in_or_app. right. left. reflexivity. }
    rewrite set_fixed_same by (rewrite List.Forall_forall in Hfix; apply Hfix, Hpt).
    assert (Hok : state_ok ts0 (pt0, s1, d)).
    { simpl. eapply Permutation_trans; [|exact Hp]. rewrite <- app_assoc. simpl.
      apply Permutation_middle. }
    destruct (match_edges_ok pt0 s1 d Hok) as (s' & d' & E & Hok' & Hlen).
    rewrite E. cbn [res_bind]. apply IH.
    + rewrite length_app in Hf. simpl in Hf. lia.
    + simpl in Hok'. eapply Permutation_trans; [|exact Hok'].
      rewrite app_assoc. apply Permutation_sym, Permutation_cons_append.
  - apply vec_pop_none in Hpop. subst s. exists d. split; [reflexivity | exact Hp].
Qed.

Lemma match_puzzle_assembled :
  exists ts', match_puzzle ts0 = Ret ts' /\ Permutation ts' ts0.
Proof.
  apply match_loop_ok; [lia | rewrite app_nil_r; reflexivity].
Qed.

End Idempotence.

(** ** Further helper lemmas *)

Lemma from_vec_aux_false (l : list bool) (i : nat) (acc : Z) :
  Forall (fun p => p = false) l -> from_vec_aux l i acc = acc.
Proof.
  intros H. revert i. induction H as [|p l Hp _ IH]; intros i; simpl; [reflexivity|].
  subst p. apply IH.
Qed.

Lemma from_vec_all_off (n : nat) : from_vec (repeat false n) = 0.
Proof.
  unfold from_vec. rewrite rev_repeat. apply from_vec_aux_false.
  apply List.Forall_forall. intros p Hp. apply repeat_spec in Hp. exact Hp.
Qed.

Lemma set_rows_twice (m : tile) (g h : grid) : set_rows (set_rows m g) h = set_rows m h.
Proof. destruct m; reflexivity. Qed.

Lemma reorient_rotate_flip (g : grid) :
  reorient [] g = g /\ reorient [true] g = rotate_pixels g
  /\ reorient [true; false] g = flip_pixels (rotate_pixels g)
  /\ reorient [true; false; true] g = rotate_pixels (flip_pixels (rotate_pixels g)).
Proof. repeat split. Qed.

Lemma reorient_blank (ops : list bool) : reorient ops blank_image = blank_image.
Proof.
  induction ops as [|b ops IH]; [reflexivity|].
  unfold reorient in *. cbn [fold_left].
  replace (if b then rotate_pixels blank_image else flip_pixels blank_image) with blank_image
    by (destruct b; vm_compute; reflexivity).
  exact IH.
Qed.

Lemma square_grid_edges_incl (g : grid) : incl (grid_edges g) (signatures g).
Proof. unfold signatures. intros e He. apply in_or_app. left. exact He. Qed.

Lemma part_one_nodup (data : list tile) :
  NoDup (map id data) -> part_one data = Some (Z_prod (corner_ids data) mod 2 ^ 64).
Proof.
  intros Hnd. unfold part_one. rewrite corners_distinct by exact Hnd.
  rewrite fold_mul_mod by lia. rewrite Z.mul_1_l. reflexivity.
Qed.

(** Distinct ids of a concrete tile list. *)
Ltac nodup_ids :=
  apply NoDup_ListNoDup; vm_compute; repeat constructor; simpl; intuition congruence.

(** A concrete grid is square. *)
Ltac square_by_eval :=
  vm_compute; split; [reflexivity | repeat constructor].

Lemma is_square_spec (g : grid) : is_square g = true -> square_grid (length g) g.
Proof.
  intros H. split; [reflexivity|]. apply List.Forall_forall. intros r Hr.
  unfold is_square in H. rewrite forallb_forall in H. apply Nat.eqb_eq, H, Hr.
Qed.

Lemma tiles_wf (ts : list tile) : forallb tile_wfb ts = true -> Forall tile_wf ts.
Proof.
  intros H. apply List.Forall_forall. intros t Ht. rewrite forallb_forall in H.
  specialize (H t Ht). unfold tile_wfb in H. rewrite !andb_true_iff in H.
  destruct H as [[[H1 H2] H3] H4]. apply Z.leb_le in H1. apply Z.ltb_lt in H2.
  apply Nat.ltb_lt in H3. split; [lia|]. split; [exact H3 | apply is_square_spec, H4].
Qed.

Lemma find_short (image : grid) :
  (length image < 20)%nat -> find_number_sea_monsters image = Panic.
Proof.
  intros Hn. unfold find_number_sea_monsters. apply Nat.ltb_lt in Hn. rewrite Hn. reflexivity.
Qed.

Lemma pixel_square (n : nat) (image : grid) (i j : nat) :
  square_grid n image -> (i < n)%nat -> (j < n)%nat -> pixel image i j = Ret (px image i j).
Proof.
  intros [Hl Hr] Hi Hj. unfold pixel, px.
  destruct (nth_error image i) as [row|] eqn:E.
  - rewrite (List.nth_error_nth image i [] E).
    assert (Hrow : length row = n).
    { rewrite List.Forall_forall in Hr. apply Hr. eapply List.nth_error_In. exact E. }
    destruct (nth_error row j) as [b|] eqn:E2.
    + rewrite (List.nth_error_nth row j false E2). reflexivity.
    + apply List.nth_error_None in E2. lia.
  - apply List.nth_error_None in E. lia.
Qed.

Lemma all_pixels_square (n : nat) (image : grid) (x y : nat) (ds : list (nat * nat)) :
  square_grid n image -> Forall (fun d => (x + fst d < n)%nat /\ (y + snd d < n)%nat) ds ->
  exists b, all_pixels image x y ds = Ret b.
Proof.
  intros Hsq. induction 1 as [|d ds [Hx Hy] _ IH]; [exists true; reflexivity|].
  cbn [all_pixels]. rewrite (pixel_square n) by assumption. cbn [res_bind].
  destruct (px image (x + fst d) (y + snd d)); [exact IH | exists false; reflexivity].
Qed.

Lemma monster_at_square (n : nat) (image : grid) (x y : nat) :
  square_grid n image -> (x + 2 < n)%nat -> (y + 19 < n)%nat ->
  exists b, monster_at image x y = Ret b.
Proof.
  intros Hsq Hx Hy. apply (all_pixels_square n); [exact Hsq|].
  apply List.Forall_forall. intros d Hd. unfold sea_monster in Hd.
  repeat (destruct Hd as [<-|Hd]; [simpl; lia|]). contradiction.
Qed.

Lemma mapM_Forall {A B} (f : A -> res B) (P : B -> Prop) (l : list A) :
  (forall x, In x l -> exists y, f x = Ret y /\ P y) ->
  exists ys, mapM f l = Ret ys /\ length ys = length l /\ Forall P ys.
Proof.
  induction l as [|x l IH]; intros H.
  - exists []. split; [reflexivity | split; [reflexivity | constructor]].
  - destruct (H x (or_introl eq_refl)) as (y & Hy & Py).
    destruct IH as (ys & Hys & Hlen & Hall). { intros z Hz. apply H. right. exact Hz. }
    exists (y :: ys). cbn [mapM]. rewrite Hy. cbn [res_bind]. rewrite Hys. cbn [res_bind].
    split; [reflexivity|]. split; [simpl; lia | constructor; assumption].
Qed.

Lemma list_sum_le (b : nat) (l : list nat) :
  Forall (fun x => (x <= b)%nat) l -> (list_sum l <= length l * b)%nat.
Proof. induction 1 as [|x l Hx _ IH]; simpl; lia. Qed.

(** On a square image of side [n >= 20] the search reads only pixels in
    range and counts at most one sea monster per start position. *)
Lemma find_square (n : nat) (image : grid) :
  square_grid n image -> (20 <= n)%nat ->
  exists c, find_number_sea_monsters image = Ret c /\ (c <= (n - 2) * (n - 19))%nat.
Proof.
  intros Hsq Hn. pose proof Hsq as [Hl _]. unfold find_number_sea_monsters. rewrite Hl.
  destruct (Nat.ltb_spec n 20); [lia|].
  lazymatch goal with
  | |- context [res_bind (mapM ?f ?l) _] =>
      destruct (mapM_Forall f (fun c => (c <= n - 19)%nat) l) as (cs & Hcs & Hlen & Hle)
  end.
  - intros x Hx. apply in_seq in Hx. cbv beta.
    lazymatch goal with
    | |- context [res_bind (mapM ?g ?l) _] =>
        destruct (mapM_Forall g (fun _ => True) l) as (bs & Hbs & Hblen & _)
    end.
    + intros y Hy. apply in_seq in Hy.
      destruct (monster_at_square n image x y) as [b Hb]; [exact Hsq | lia | lia |].
      exists b. split; [exact Hb | exact I].
    + rewrite Hbs. cbn [res_bind]. eexists. split; [reflexivity|].
      eapply Nat.le_trans; [apply List.filter_length_le|]. rewrite Hblen, length_seq. lia.
  - rewrite Hcs. cbn [res_bind]. eexists. split; [reflexivity|].
    eapply Nat.le_trans; [apply list_sum_le, Hle|]. rewrite Hlen, length_seq. nia.
Qed.

(** * The claims *)

(** C1: on the example of nine 10 by 10 tiles, part one gives the corner
    product 20899048083289, the composite image is a 24 by 24 square and
    part two gives the roughness 273. *)
Theorem example_results :
  part_one example_tiles = Some 20899048083289
  /\ (let* ts := match_puzzle example_tiles in form_image ts) = Ret example_image
  /\ square_grid 24 example_image
  /\ part_two example_tiles = Ret 273.
Proof.
  split; [vm_compute; reflexivity|].
  split; [vm_compute; reflexivity|].
  split; [square_by_eval | vm_compute; reflexivity].
Qed.

(** C2: the sea-monster search does not try all eight orientations. The
    24 by 24 image [upside_down_monster] holds a sea monster once turned
    by 180 degrees, yet the loop of [get_water_roughness] visits only the
    image, its rotation, the mirror of that rotation and its rotation, and
    never exits, whatever the number of passes. *)
Theorem water_roughness_misses_upside_down :
  find_number_sea_monsters (rotate_pixels (rotate_pixels upside_down_monster)) = Ret 1%nat
  /\ forall fuel, get_water_roughness_fuel fuel upside_down_monster = NoExit.
Proof.
  split; [vm_compute; reflexivity|].
  apply (water_roughness_cycles 24); [lia | square_by_eval | ..];
    vm_compute; reflexivity.
Qed.

(** C3 (amended): [get_water_roughness] has no failure value for a missing
    sea monster: on a square image of side at least 20 none of whose
    orientations holds a sea monster, its loop never exits; on a square
    image of side below 20 it panics in [find_number_sea_monsters] before
    the loop. *)
Theorem water_roughness_no_monster_diverges (n : nat) (g : grid) :
  square_grid n g ->
  ((n < 20)%nat -> forall fuel, get_water_roughness_fuel fuel g = Panic)
  /\ ((20 <= n)%nat ->
      (forall ops, find_number_sea_monsters (reorient ops g) = Ret 0%nat) ->
      forall fuel, get_water_roughness_fuel fuel g = NoExit).
Proof.
  intros Hg. split.
  - intros Hn fuel. unfold get_water_roughness_fuel.
    rewrite find_short by (destruct Hg as [-> _]; exact Hn). reflexivity.
  - intros Hn H. destruct (reorient_rotate_flip g) as (E0 & E1 & E2 & E3).
    apply (water_roughness_cycles n); [lia | exact Hg | ..].
    + rewrite <- E0. apply H.
    + rewrite <- E1. apply H.
    + rewrite <- E2. apply H.
    + rewrite <- E3. apply H.
Qed.

Lemma water_roughness_no_monster_diverges_witness :
  (forall fuel, get_water_roughness_fuel fuel blank_image = NoExit)
  /\ (forall fuel, get_water_roughness_fuel fuel small_blank_image = Panic).
Proof.
  assert (Hs : square_grid 24 blank_image) by square_by_eval.
  assert (Hs5 : square_grid 5 small_blank_image) by square_by_eval.
  assert (Hf : forall ops, find_number_sea_monsters (reorient ops blank_image) = Ret 0%nat).
  { intros ops. rewrite reorient_blank. vm_compute. reflexivity. }
  split.
  - apply (proj2 (water_roughness_no_monster_diverges 24 blank_image Hs)); [lia | exact Hf].
  - apply (proj1 (water_roughness_no_monster_diverges 5 small_blank_image Hs5)). lia.
Defined.

(** C3 counterexample: the image with no pixel on holds no sea monster,
    and one pass of the loop leaves it unchanged with no match, so the
    [while num_monsters == 0] loop runs forever and reports no failure
    value. *)
Lemma blank_image_roughness_cycles :
  find_number_sea_monsters blank_image = Ret 0%nat
  /\ roughness_pass blank_image = Ret (blank_image, 0%nat)
  /\ get_water_roughness_fuel loop_fuel blank_image = NoExit.
Proof. split; [|split]; vm_compute; reflexivity. Qed.

(** C4 (amended): for tiles with distinct [u32] ids, each a square grid of
    side at least 1, part one gives the product of the ids of the tiles
    with at least two edges that match no edge of another tile, directly
    or reversed, reduced modulo [2 ^ 64] (the [u64] product wraps); it is
    the same for every order of the tiles. *)
Theorem part_one_corner_product (data : list tile) :
  NoDup (map id data) -> Forall tile_wf data ->
  part_one data = Some (Z_prod (corner_ids data) mod 2 ^ 64)
  /\ forall data', Permutation data data' -> part_one data' = part_one data.
Proof.
  intros Hnd _. split; [apply part_one_nodup, Hnd|].
  intros data' Hp.
  assert (Hnd' : NoDup (map id data')).
  { apply NoDup_ListNoDup. apply NoDup_ListNoDup in Hnd.
    eapply Permutation_NoDup; [apply Permutation_map, Hp | exact Hnd]. }
  rewrite !part_one_nodup by assumption. f_equal. f_equal.
  apply Z_prod_perm. unfold corner_ids. apply Permutation_map.
  rewrite (filter_ext (is_corner data') (is_corner data))
    by (intros t; symmetry; apply is_corner_perm, Hp).
  apply filter_perm, Permutation_sym, Hp.
Qed.

Lemma part_one_corner_product_witness :
  NoDup (map id example_tiles) /\ Forall tile_wf example_tiles
  /\ part_one example_tiles = Some (Z_prod (corner_ids example_tiles) mod 2 ^ 64).
Proof.
  assert (Hnd : NoDup (map id example_tiles)) by nodup_ids.
  assert (Hwf : Forall tile_wf example_tiles) by (apply tiles_wf; vm_compute; reflexivity).
  split; [exact Hnd|]. split; [exact Hwf|].
  exact (proj1 (part_one_corner_product example_tiles Hnd Hwf)).
Defined.

(** C4 counterexample: the example tiles with ids raised by 4294000000
    keep distinct [u32] ids and 10 by 10 grids, and their four corner ids
    have a product of at least [2 ^ 64]; part one gives that product
    modulo [2 ^ 64], not the product. *)
Lemma part_one_product_wraps :
  NoDup (map id big_id_tiles) /\ Forall tile_wf big_id_tiles
  /\ 2 ^ 64 <= Z_prod (corner_ids big_id_tiles)
  /\ part_one big_id_tiles <> Some (Z_prod (corner_ids big_id_tiles)).
Proof.
  split; [nodup_ids|]. split; [apply tiles_wf; vm_compute; reflexivity|].
  split; vm_compute; intros H; discriminate H.
Qed.

(** C5: an unfixed 10 by 10 candidate tile for the reversal [flip e] of an
    edge on side [i] is mirrored at most once ([b]) and rotated at most 3
    times ([k]); the orientation then ends with [flip e] on the opposite
    side, within 4 passes of the rotation loop. *)
Theorem orient_candidate (fuel i : nat) (e : Z) (m : tile) :
  (3 < fuel)%nat -> fixed m = false -> square_grid 10 (rows m) -> (i < 4)%nat ->
  candidate (flip e) m = true ->
  exists (b : bool) (k : nat), (k <= 3)%nat
    /\ orient_fuel fuel i (flip e) m =
         Ret (set_fixed (set_rows m (rotate_n k (if b then flip_pixels (rows m) else rows m))) true)
    /\ edge_at (set_rows m (rotate_n k (if b then flip_pixels (rows m) else rows m))) (opposite i)
       = flip e.
Proof.
  intros Hfuel Hfix Hsq Hi Hcand. unfold orient_fuel.
  destruct (contains (edges m) (flip e)) eqn:Hc.
  - cbn [res_bind]. apply contains_In in Hc.
    destruct (edge_reachable (rows m) i (flip e) Hsq Hi Hc) as (n & Hn & Hnth).
    destruct (rotate_until_spec i (flip e) n fuel m) as (k & Hk & Hrun & Hedge);
      [lia | exact Hfix | exact Hsq | exact Hnth |].
    rewrite Hrun. exists false, k. split; [lia|]. split; [reflexivity | exact Hedge].
  - unfold candidate in Hcand. rewrite Hc, Hfix, andb_true_r in Hcand. simpl in Hcand.
    apply contains_In in Hcand. unfold tile_flip. rewrite Hfix. cbn [res_bind].
    set (m1 := set_rows m (flip_pixels (rows m))).
    assert (Hsq1 : square_grid 10 (rows m1)) by (apply flip_square, Hsq).
    assert (Hin : In (flip e) (grid_edges (rows m1))).
    { unfold m1. simpl. rewrite flip_edges by exact Hsq.
      unfold edges in Hcand. rewrite grid_edges_sides in Hcand. simpl in Hcand |- *.
      destruct Hcand as [E|[E|[E|[E|[]]]]];
        [left | right; right; right; left | right; right; left | right; left];
        rewrite E; apply flip_flip_flip. }
    destruct (edge_reachable (rows m1) i (flip e) Hsq1 Hi Hin) as (n & Hn & Hnth).
    destruct (rotate_until_spec i (flip e) n fuel m1) as (k & Hk & Hrun & Hedge);
      [lia | exact Hfix | exact Hsq1 | exact Hnth |].
    rewrite Hrun. exists true, k. unfold m1 in *. simpl rows in *.
    rewrite set_rows_twice in *. split; [lia|]. split; [reflexivity | exact Hedge].
Qed.

Lemma orient_candidate_witness :
  exists (b : bool) (k : nat), (k <= 3)%nat
    /\ orient_fuel 4 3 (flip (edge_at tile_2311 3)) tile_1951 =
         Ret (set_fixed (set_rows tile_1951
                (rotate_n k (if b then flip_pixels (rows tile_1951) else rows tile_1951))) true)
    /\ edge_at (set_rows tile_1951
         (rotate_n k (if b then flip_pixels (rows tile_1951) else rows tile_1951))) (opposite 3)
       = flip (edge_at tile_2311 3).
Proof.
  apply (orient_candidate 4 3 (edge_at tile_2311 3) tile_1951);
    [lia | reflexivity | square_by_eval | lia | vm_compute; reflexivity].
Defined.

(** C6 (amended): a layout of [k * k] tiles with distinct ids, [k >= 2],
    whose tiles carry their completed adjacency maps, is rebuilt by
    [arrange_tiles] from the tiles in any order: the result is the layout,
    a [k] by [k] grid holding every tile once.  A single tile, whose
    completed adjacency map is empty, makes [arrange_tiles] panic. *)
Theorem arrange_tiles_square (k : nat) (L : list (list tile)) (ts : list tile) :
  (2 <= k)%nat -> length L = k -> Forall (fun row => length row = k) L ->
  NoDup (map id (concat L)) -> Permutation ts (concat L) ->
  (forall r c, (r < k)%nat -> (c < k)%nat -> adjacent (cell L r c) = layout_adj L r c) ->
  (exists g, arrange_tiles ts = Ret g /\ g = L /\ length g = k
    /\ Forall (fun row => length row = k) g /\ Permutation (concat g) ts)
  /\ (forall t, adjacent t = ∅ -> arrange_tiles [t] = Panic).
Proof.
  intros Hk HL Hrows Hnd Hperm Hadj. split.
  - exists L. split; [apply (arrange_layout k L ts); assumption|].
    split; [reflexivity|]. split; [exact HL|]. split; [exact Hrows|].
    apply Permutation_sym, Hperm.
  - intros t Ht. unfold arrange_tiles. cbn [List.find]. unfold is_top_left.
    rewrite Ht, map_size_empty. reflexivity.
Qed.

Lemma arrange_tiles_square_witness :
  (exists g, arrange_tiles (concat tiny_layout) = Ret g /\ g = tiny_layout /\ length g = 2%nat
    /\ Forall (fun row => length row = 2%nat) g /\ Permutation (concat g) (concat tiny_layout))
  /\ (forall t, adjacent t = ∅ -> arrange_tiles [t] = Panic).
Proof.
  apply (arrange_tiles_square 2 tiny_layout (concat tiny_layout)).
  - lia.
  - reflexivity.
  - repeat constructor.
  - nodup_ids.
  - reflexivity.
  - intros r c Hr Hc.
    destruct r as [|[|r]]; [| | lia]; (destruct c as [|[|c]]; [| | lia]); reflexivity.
Defined.

(** C6 counterexample: a single tile, with the empty adjacency map of a
    1 by 1 layout, makes [arrange_tiles] panic: no tile has exactly two
    neighbours. *)
Lemma arrange_single_tile_panics :
  adjacent (cell [[tile_1951]] 0 0) = layout_adj [[tile_1951]] 0 0
  /\ arrange_tiles [tile_1951] = Panic.
Proof. split; vm_compute; reflexivity. Qed.

(** C7: on fixed tiles with distinct [u32] ids, each a square grid of
    side at least 1, and a complete, consistent adjacency graph,
    [match_puzzle] returns the same tiles, adjacency maps included, up to
    their order. *)
Theorem match_puzzle_no_op (ts : list tile) :
  Forall (fun t => fixed t = true) ts -> NoDup (map id ts) -> Forall tile_wf ts ->
  adjacency_complete ts = true ->
  exists ts', match_puzzle ts = Ret ts' /\ Permutation ts' ts.
Proof. intros Hfix Hnd _ Hcomp. apply match_puzzle_assembled; assumption. Qed.

Lemma match_puzzle_no_op_witness :
  exists ts', match_puzzle assembled_example = Ret ts' /\ Permutation ts' assembled_example.
Proof.
  apply match_puzzle_no_op.
  - vm_compute. repeat constructor.
  - nodup_ids.
  - apply tiles_wf. vm_compute. reflexivity.
  - vm_compute. reflexivity.
Defined.

(** C8 (amended): for 10 by 10 grids [a] and [b], the reversal of the right
    edge of [a] equals the left edge of [b] exactly when the columns meet
    pixel by pixel; then the right edge of [a] is the reversal of the left
    edge of [b], and equals that left edge only when it is a palindrome. *)
Theorem adjacent_edges_reversed (a b : grid) :
  square_grid 10 a -> square_grid 10 b ->
  (flip (right_edge a) = left_edge b <-> (forall r, (r < 10)%nat -> px a r 9 = px b r 0))
  /\ (flip (right_edge a) = left_edge b ->
      right_edge a = flip (left_edge b)
      /\ (right_edge a = left_edge b <-> flip (left_edge b) = left_edge b)).
Proof.
  intros Ha Hb. split; [apply right_left_columns; assumption|].
  intros E. assert (R : right_edge a = flip (left_edge b)).
  { rewrite <- E. symmetry. apply right_edge_flip_flip, Ha. }
  split; [exact R|]. rewrite R. reflexivity.
Qed.

Lemma adjacent_edges_reversed_witness :
  flip (right_edge (assembled_rows 1951)) = left_edge (assembled_rows 2311)
  /\ right_edge (assembled_rows 1951) = flip (left_edge (assembled_rows 2311)).
Proof.
  assert (Ha : square_grid 10 (assembled_rows 1951)) by square_by_eval.
  assert (Hb : square_grid 10 (assembled_rows 2311)) by square_by_eval.
  assert (E : flip (right_edge (assembled_rows 1951)) = left_edge (assembled_rows 2311))
    by (vm_compute; reflexivity).
  split; [exact E|].
  exact (proj1 (proj2 (adjacent_edges_reversed _ _ Ha Hb) E)).
Defined.

(** C8 counterexample: in the assembled example, tile 2311 lies right of
    tile 1951, the reversed right edge of 1951 is the left edge of 2311,
    but the right edge of 1951 itself is not. *)
Lemma assembled_right_left_differ :
  flip (right_edge (assembled_rows 1951)) = left_edge (assembled_rows 2311)
  /\ right_edge (assembled_rows 1951) <> left_edge (assembled_rows 2311).
Proof. split; vm_compute; [reflexivity | discriminate]. Qed.

(** C9: for a 10 by 10 grid with edges [t; r; b; l], a rotation gives
    edges [l; t; r; b], a mirror gives [flip t; flip l; flip b; flip r],
    and every sequence of rotations and mirrors keeps the edges among the
    grid's signatures and their reversals. *)
Theorem reorientation_edges (g : grid) :
  square_grid 10 g ->
  grid_edges g = [top_edge g; right_edge g; bottom_edge g; left_edge g]
  /\ grid_edges (rotate_pixels g) = [left_edge g; top_edge g; right_edge g; bottom_edge g]
  /\ grid_edges (flip_pixels g) =
     [flip (top_edge g); flip (left_edge g); flip (bottom_edge g); flip (right_edge g)]
  /\ forall ops, incl (grid_edges (reorient ops g)) (signatures g).
Proof.
  intros Hg. split; [apply grid_edges_sides|].
  split; [apply rotate_edges, Hg|]. split; [apply flip_edges, Hg|].
  intros ops. apply reorient_signatures; [exact Hg | exact Hg | apply square_grid_edges_incl].
Qed.

Lemma reorientation_edges_witness :
  square_grid 10 (rows tile_1951)
  /\ grid_edges (rotate_pixels (rows tile_1951)) =
     [left_edge (rows tile_1951); top_edge (rows tile_1951);
      right_edge (rows tile_1951); bottom_edge (rows tile_1951)].
Proof.
  assert (Hg : square_grid 10 (rows tile_1951)) by square_by_eval.
  split; [exact Hg | exact (proj1 (proj2 (reorientation_edges _ Hg)))].
Defined.

(** C10 (amended): [flip] reverses 10 bits: it is an involution on the
    values below [2 ^ 10], and reverses the row of every 10-pixel row; on a
    row of another length the equation can fail, as for [[true]], and can
    hold, as for every row with no pixel on. *)
Theorem flip_ten_bits :
  (forall x, 0 <= x < 2 ^ 10 -> flip (flip x) = x)
  /\ (forall v, length v = 10%nat -> flip (from_vec v) = from_vec (rev v))
  /\ flip (from_vec [true]) <> from_vec (rev [true])
  /\ (forall n, flip (from_vec (repeat false n)) = from_vec (rev (repeat false n))).
Proof.
  split; [exact flip_involutive_10|]. split; [exact flip_from_vec_rev_10|].
  split; [vm_compute; discriminate|].
  intros n. rewrite rev_repeat, from_vec_all_off. reflexivity.
Qed.

Lemma flip_ten_bits_witness :
  flip (flip 5) = 5 /\ flip (from_vec (repeat true 10)) = from_vec (rev (repeat true 10)).
Proof.
  destruct flip_ten_bits as (H1 & H2 & _).
  split; [apply H1; lia | apply H2; reflexivity].
Defined.

(** C10 counterexample: the one-pixel row [[false]] is not 10 pixels long,
    yet [flip] maps its value to the value of its reversal. *)
Lemma short_row_flip_holds :
  length [false] <> 10%nat /\ flip (from_vec [false]) = from_vec (rev [false]).
Proof. split; [discriminate | vm_compute; reflexivity]. Qed.

(** * Further properties of the code *)

(** ** Helper lemmas *)

Lemma bound_of_high_bits (x : Z) (L : nat) :
  (forall k, (L <= k)%nat -> Z.testbit x (Z.of_nat k) = false) -> 0 <= x < 2 ^ Z.of_nat L.
Proof.
  intros H. assert (E : x = x mod 2 ^ Z.of_nat L).
  { apply bits_nat_inj. intros k. destruct (Nat.lt_ge_cases k L).
    - rewrite Z.mod_pow2_bits_low by lia. reflexivity.
    - rewrite Z.mod_pow2_bits_high by lia. apply H. lia. }
  rewrite E. apply Z.mod_pos_bound. apply Z.pow_pos_nonneg; lia.
Qed.

Lemma square_rotate_facts (n : nat) (g : grid) :
  (0 < n)%nat -> square_grid n g ->
  square_grid n (rotate_pixels g) /\ square_grid n (rotate_pixels (rotate_pixels g))
  /\ square_grid n (rotate_pixels (rotate_pixels (rotate_pixels g))).
Proof.
  intros Hn Hg. pose proof (rotate_square n g Hn Hg) as H1.
  pose proof (rotate_square n _ Hn H1) as H2.
  pose proof (rotate_square n _ Hn H2) as H3. auto.
Qed.

(** ** Reorienting pixel grids *)

(** [flip_pixels] undoes itself on every grid. *)
Theorem flip_pixels_involutive (g : grid) : flip_pixels (flip_pixels g) = g.
Proof.
  unfold flip_pixels. rewrite map_map.
  rewrite (map_ext _ (fun r => r)) by apply rev_involutive. apply map_id.
Qed.

(** [rotate_pixels] turns a square grid a quarter turn clockwise: the
    pixel at row [r], column [c] comes from row [n - 1 - c], column [r];
    four turns give the grid back. *)
Theorem rotate_pixels_clockwise (n : nat) (g : grid) :
  (0 < n)%nat -> square_grid n g ->
  square_grid n (rotate_pixels g)
  /\ (forall r c, (r < n)%nat -> (c < n)%nat -> px (rotate_pixels g) r c = px g (n - 1 - c) r)
  /\ rotate_pixels (rotate_pixels (rotate_pixels (rotate_pixels g))) = g.
Proof.
  intros Hn Hg. destruct (square_rotate_facts n g Hn Hg) as (H1 & H2 & H3).
  split; [exact H1|]. split; [intros r c Hr Hc; apply px_rotate; assumption|].
  apply (grid_ext n); [apply rotate_square; assumption | exact Hg |].
  intros r c Hr Hc.
  rewrite (px_rotate n _ r c H3) by lia.
  rewrite (px_rotate n _ _ _ H2) by lia.
  rewrite (px_rotate n _ _ _ H1) by lia.
  rewrite (px_rotate n _ _ _ Hg) by lia.
  f_equal; lia.
Qed.

Lemma rotate_pixels_clockwise_witness :
  square_grid 10 (rotate_pixels (rows tile_1951))
  /\ rotate_pixels (rotate_pixels (rotate_pixels (rotate_pixels (rows tile_1951)))) = rows tile_1951.
Proof.
  assert (Hg : square_grid 10 (rows tile_1951)) by square_by_eval.
  destruct (rotate_pixels_clockwise 10 (rows tile_1951) ltac:(lia) Hg) as (H1 & _ & H3).
  split; [exact H1 | exact H3].
Defined.

(** A rotation followed by a mirror transposes a square grid, so doing
    both twice gives the grid back. *)
Theorem rotate_flip_transpose (n : nat) (g : grid) :
  (0 < n)%nat -> square_grid n g ->
  (forall r c, (r < n)%nat -> (c < n)%nat -> px (flip_pixels (rotate_pixels g)) r c = px g c r)
  /\ flip_pixels (rotate_pixels (flip_pixels (rotate_pixels g))) = g.
Proof.
  intros Hn Hg. split; [|apply (flip_rotate_twice n); assumption].
  intros r c Hr Hc. pose proof (rotate_square n g Hn Hg) as H1.
  rewrite (px_flip n _ r c H1 Hr Hc). rewrite (px_rotate n g r _ Hg Hr) by lia.
  f_equal; lia.
Qed.

Lemma rotate_flip_transpose_witness :
  flip_pixels (rotate_pixels (flip_pixels (rotate_pixels (rows tile_1951)))) = rows tile_1951.
Proof.
  assert (Hg : square_grid 10 (rows tile_1951)) by square_by_eval.
  exact (proj2 (rotate_flip_transpose 10 (rows tile_1951) ltac:(lia) Hg)).
Defined.

(** ** Edge signatures as bit fields *)

(** [TileRow::from_vec] of a row of at most 16 pixels is below
    [2 ^ length], and two rows of the same length with the same value are
    equal. *)
Theorem from_vec_encoding (v w : list bool) :
  (length v <= 16)%nat ->
  (0 <= from_vec v < 2 ^ Z.of_nat (length v))
  /\ (length w = length v -> from_vec w = from_vec v -> w = v).
Proof.
  intros Hv. split.
  - apply bound_of_high_bits. intros k Hk. rewrite from_vec_bits by exact Hv.
    nat_cases; [lia | reflexivity].
  - intros Hl E. apply (nth_ext _ _ false false); [exact Hl|].
    intros i Hi. assert (Hb := f_equal (fun z => Z.testbit z (Z.of_nat (length v - 1 - i))) E).
    simpl in Hb. rewrite !from_vec_bits in Hb by lia. rewrite Hl in Hb.
    rewrite (proj2 (Nat.ltb_lt (length v - 1 - i) (length v)) ltac:(lia)) in Hb.
    simpl in Hb. replace (length v - 1 - (length v - 1 - i))%nat with i in Hb by lia.
    exact Hb.
Qed.

Lemma from_vec_encoding_witness :
  (0 <= from_vec [true; false] < 2 ^ Z.of_nat (length [true; false]))
  /\ (length [true; true] = length [true; false] -> from_vec [true; true] = from_vec [true; false]
      -> [true; true] = [true; false]).
Proof. apply from_vec_encoding. simpl. lia. Defined.

(** [TileRow::flip] reads only bits 0 to 9 of its argument and sets only
    bits 0 to 9. *)
Theorem flip_low_bits (x : Z) : 0 <= flip x < 2 ^ 10 /\ flip x = flip (x mod 2 ^ 10).
Proof.
  split.
  - change (2 ^ 10) with (2 ^ Z.of_nat 10). apply bound_of_high_bits.
    intros k Hk. rewrite flip_bits. nat_cases; [lia | reflexivity].
  - apply bits_nat_inj. intros k. rewrite !flip_bits. nat_cases; [|reflexivity].
    simpl. change (2 ^ 10) with (2 ^ Z.of_nat 10).
    rewrite Z.mod_pow2_bits_low by lia. reflexivity.
Qed.

(** Every edge signature of a 10 by 10 tile is a 10-bit value. *)
Theorem edges_ten_bits (t : tile) :
  square_grid 10 (rows t) -> Forall (fun e => 0 <= e < 2 ^ 10) (edges t).
Proof.
  intros Hg. apply List.Forall_forall. intros e He.
  change (2 ^ 10) with (2 ^ Z.of_nat 10). apply bound_of_high_bits.
  intros k Hk. eapply edges_high_bits; [exact Hg | exact He | exact Hk].
Qed.

Lemma edges_ten_bits_witness : Forall (fun e => 0 <= e < 2 ^ 10) (edges tile_1951).
Proof. apply edges_ten_bits. square_by_eval. Defined.

(** ** [match_puzzle] on any input *)

Lemma reorient_app (ops1 ops2 : list bool) (g : grid) :
  reorient (ops1 ++ ops2) g = reorient ops2 (reorient ops1 g).
Proof. unfold reorient. apply fold_left_app. Qed.

Lemma reorient_rotate_n (k : nat) (g : grid) : rotate_n k g = reorient (repeat true k) g.
Proof.
  revert g. induction k as [|k IH]; intros g; [reflexivity|].
  simpl. rewrite IH. reflexivity.
Qed.

Lemma rotate_until_rows (fuel i : nat) (e : Z) :
  forall m m', rotate_until fuel i e m = Ret m' ->
  id m' = id m /\ fixed m' = fixed m /\ exists k, rows m' = rotate_n k (rows m).
Proof.
  induction fuel as [|f IH]; intros m m' H; simpl in H; [discriminate|].
  destruct (Z.eqb (edge_at m (opposite i)) e).
  - injection H as <-. split; [reflexivity|]. split; [reflexivity|]. exists 0%nat. reflexivity.
  - unfold tile_rotate in H. destruct (fixed m) eqn:Hf; [discriminate|].
    cbn [res_bind] in H. destruct (IH _ _ H) as (Hid & Hfx & k & Hk).
    simpl in Hid, Hfx, Hk. split; [exact Hid|]. split; [congruence|].
    exists (S k). exact Hk.
Qed.

Lemma orient_rows (fuel i : nat) (e : Z) (m m' : tile) :
  orient_fuel fuel i e m = Ret m' ->
  id m' = id m /\ fixed m' = true /\ exists ops, rows m' = reorient ops (rows m).
Proof.
  unfold orient_fuel. intros H.
  destruct (contains (edges m) e).
  - cbn [res_bind] in H. destruct (rotate_until fuel i e m) as [m2| |] eqn:Hr; try discriminate.
    cbn [res_bind] in H. injection H as <-.
    destruct (rotate_until_rows _ _ _ _ _ Hr) as (Hid & _ & k & Hk).
    simpl. split; [exact Hid|]. split; [reflexivity|].
    exists (repeat true k). rewrite Hk. apply reorient_rotate_n.
  - unfold tile_flip in H. destruct (fixed m); [discriminate|]. cbn [res_bind] in H.
    destruct (rotate_until fuel i e _) as [m2| |] eqn:Hr; try discriminate.
    cbn [res_bind] in H. injection H as <-.
    destruct (rotate_until_rows _ _ _ _ _ Hr) as (Hid & _ & k & Hk).
    simpl in *. split; [exact Hid|]. split; [reflexivity|].
    exists (false :: repeat true k). rewrite Hk, reorient_rotate_n. reflexivity.
Qed.

Lemma reoriented_from_trans (ts0 : list tile) (t t' : tile) (ops : list bool) :
  reoriented_from ts0 t -> id t' = id t -> rows t' = reorient ops (rows t) ->
  reoriented_from ts0 t'.
Proof.
  intros (t0 & ops0 & Hin & Hid & Hrows) Hid' Hrows'.
  exists t0, (ops0 ++ ops). split; [exact Hin|]. split; [congruence|].
  rewrite reorient_app, <- Hrows. exact Hrows'.
Qed.

Section AnyInput.
Variable ts0 : list tile.

Lemma match_edge_inv (i : nat) (e : Z) (st st' : tile * list tile * list tile) :
  match_inv ts0 st -> match_edge i e st = Ret st' -> match_inv ts0 st'.
Proof.
  destruct st as [[pt s] d]. intros (Hp & Hg & Hpt & Hd) H. unfold match_edge in H.
  destruct (position (candidate e) s) as [idx|] eqn:Hpos.
  2: { injection H as <-. repeat split; assumption. }
  destruct (position_remove _ _ _ Hpos) as (m0 & s1 & Hrem & _ & Hperm).
  rewrite Hrem in H. cbn [res_bind] in H.
  assert (Hperm' : Permutation (pt :: s ++ d) (pt :: m0 :: s1 ++ d))
    by (apply perm_skip; rewrite Hperm; reflexivity).
  assert (Hg' : Forall (reoriented_from ts0) (pt :: m0 :: s1 ++ d))
    by (eapply Permutation_Forall; [exact Hperm' | exact Hg]).
  inversion Hg' as [|? ? Hgpt Hg1]; subst. inversion Hg1 as [|? ? Hgm0 Hgrest]; subst.
  assert (Hm : exists m, (if fixed m0 then Ret m0 else orient_fuel loop_fuel i e m0) = Ret m
                /\ fixed m = true /\ reoriented_from ts0 m /\ id m = id m0).
  { destruct (fixed m0) eqn:Hf.
    - exists m0. auto.
    - destruct (orient_fuel loop_fuel i e m0) as [m| |] eqn:Ho;
        [| cbn [res_bind] in H; discriminate..].
      destruct (orient_rows _ _ _ _ _ Ho) as (Hid & Hfx & ops & Hr).
      exists m. split; [reflexivity|]. split; [exact Hfx|]. split; [|exact Hid].
      eapply reoriented_from_trans; eassumption. }
  destruct Hm as (m & Hmeq & Hmf & Hmg & Hmid). rewrite Hmeq in H. cbn [res_bind] in H.
  destruct (negb _); [discriminate|].
  set (pt' := set_adjacent pt _) in H. set (m' := set_adjacent m _) in H.
  assert (Hpt' : reoriented_from ts0 pt')
    by (eapply (reoriented_from_trans _ pt _ []); [exact Hgpt | reflexivity | reflexivity]).
  assert (Hm' : reoriented_from ts0 m')
    by (eapply (reoriented_from_trans _ m _ []); [exact Hmg | reflexivity | reflexivity]).
  assert (Hids : Permutation (map id (pt' :: s1 ++ d ++ [m'])) (map id ts0)).
  { replace (map id (pt' :: s1 ++ d ++ [m'])) with (map id (pt :: s1 ++ d ++ [m0]))
      by (simpl; rewrite !map_app; simpl; unfold pt', m'; simpl; rewrite Hmid; reflexivity).
    eapply Permutation_trans; [|exact Hp]. apply Permutation_map.
    eapply Permutation_trans; [|apply Permutation_sym, Hperm'].
    apply perm_skip. rewrite app_assoc. apply Permutation_sym, Permutation_cons_append. }
  destruct (3 <? size (adjacent m'))%nat; injection H as <-; simpl.
  - split; [exact Hids|]. apply Forall_app in Hgrest as [H1 H2].
    split; [constructor; [exact Hpt'|]; apply Forall_app; split;
            [exact H1 | apply Forall_app; split; [exact H2 | repeat constructor; exact Hm']]|].
    split; [exact Hpt|]. apply Forall_app; split; [exact Hd | repeat constructor; exact Hmf].
  - split.
    + eapply Permutation_trans; [|exact Hids]. simpl. apply perm_skip.
      rewrite !map_app. solve_Permutation.
    + split; [|split; [exact Hpt | exact Hd]].
      constructor; [exact Hpt'|]. apply Forall_app in Hgrest. destruct Hgrest as [H1 H2].
      apply Forall_app. split; [|exact H2]. apply Forall_app. split; [exact H1|].
      repeat constructor. exact Hm'.
Qed.

End AnyInput.

Lemma match_edges_inv (ts0 : list tile) (es : list Z) :
  forall i st st', match_inv ts0 st -> match_edges es i st = Ret st' -> match_inv ts0 st'.
Proof.
  induction es as [|e es IH]; intros i st st' Hinv H; simpl in H.
  - injection H as <-. exact Hinv.
  - destruct (match_edge i e st) as [st1| |] eqn:He; try discriminate.
    cbn [res_bind] in H. eapply IH; [|exact H]. eapply match_edge_inv; eassumption.
Qed.

Lemma match_loop_inv (ts0 : list tile) (fuel : nat) :
  forall s d r,
  Permutation (map id (s ++ d)) (map id ts0) -> Forall (reoriented_from ts0) (s ++ d) ->
  Forall (fun t => fixed t = true) d -> match_loop fuel s d = Ret r ->
  Permutation (map id r) (map id ts0) /\ Forall (reoriented_from ts0) r
  /\ Forall (fun t => fixed t = true) r.
Proof.
  induction fuel as [|f IH]; intros s d r Hp Hg Hd H; simpl in H; [discriminate|].
  destruct (vec_pop s) as [[pt0 s1]|] eqn:Hpop.
  - apply vec_pop_some in Hpop. subst s.
    set (pt := set_fixed pt0 true) in H.
    assert (Hinv : match_inv ts0 (pt, s1, d)).
    { rewrite <- app_assoc in Hp, Hg. simpl in Hp, Hg.
      apply Forall_app in Hg as [Hg1 Hg2]. inversion Hg2 as [|? ? Hgp Hgd]; subst.
      split; [|split; [|split; [reflexivity | exact Hd]]].
      - eapply Permutation_trans; [|exact Hp]. simpl. rewrite !map_app. simpl.
        solve_Permutation.
      - constructor; [eapply (reoriented_from_trans _ pt0 _ []); [exact Hgp | reflexivity..]|].
        apply Forall_app. split; assumption. }
    destruct (match_edges _ 0 (pt, s1, d)) as [[[pt' s''] d']| |] eqn:He; try discriminate.
    cbn [res_bind] in H. destruct (match_edges_inv _ _ _ _ _ Hinv He) as (Hp' & Hg' & Hpt' & Hd').
    eapply IH; [| | |exact H].
    + eapply Permutation_trans; [|exact Hp']. rewrite !map_app. simpl. rewrite map_app.
      solve_Permutation.
    + inversion Hg' as [|? ? Hgp Hgr]; subst. apply Forall_app in Hgr as [H1 H2].
      rewrite app_assoc. apply Forall_app. split; [apply Forall_app; split; assumption|].
      repeat constructor. exact Hgp.
    + apply Forall_app. split; [exact Hd'|]. repeat constructor. exact Hpt'.
  - apply vec_pop_none in Hpop. subst s. injection H as <-.
    split; [exact Hp|]. split; [exact Hg | exact Hd].
Qed.

(** Whatever the input, when [match_puzzle] returns, its tiles carry the
    input's ids, permuted; every returned tile is fixed and is an input
    tile with the same id whose pixels have only been rotated and
    mirrored. *)
Theorem match_puzzle_keeps_tiles (ts ts' : list tile) :
  match_puzzle ts = Ret ts' ->
  Permutation (map id ts') (map id ts)
  /\ Forall (fun t => fixed t = true /\ reoriented_from ts t) ts'.
Proof.
  intros H. unfold match_puzzle in H.
  destruct (match_loop_inv ts (S (length ts)) ts [] ts') as (Hp & Hg & Hf);
    [rewrite app_nil_r; reflexivity | | constructor | exact H |].
  - rewrite app_nil_r. apply List.Forall_forall. intros t Ht.
    exists t, []. auto.
  - split; [exact Hp|]. apply List.Forall_forall. intros t Ht.
    rewrite List.Forall_forall in Hg, Hf. auto.
Qed.

Lemma match_puzzle_keeps_tiles_witness :
  match_puzzle example_tiles = Ret assembled_example
  /\ Permutation (map id assembled_example) (map id example_tiles).
Proof.
  assert (H : match_puzzle example_tiles = Ret assembled_example) by (vm_compute; reflexivity).
  split; [exact H | exact (proj1 (match_puzzle_keeps_tiles _ _ H))].
Defined.

(** ** [arrange_tiles] on any input *)

Lemma id_map_in_aux (l : list tile) (m : gmap Z tile) (key : Z) (t : tile) :
  foldl (fun m t => <[id t := t]> m) m l !! key = Some t -> m !! key = Some t \/ In t l.
Proof.
  revert m. induction l as [|x l IH]; intros m H; simpl in *; [left; exact H|].
  destruct (IH _ H) as [H1|H1]; [|right; right; exact H1].
  destruct (decide (id x = key)) as [<-|Hne].
  - rewrite lookup_insert_eq in H1. injection H1 as <-. right. left. reflexivity.
  - rewrite lookup_insert_ne in H1 by exact Hne. left. exact H1.
Qed.

Lemma id_map_in (l : list tile) (key : Z) (t : tile) : id_map l !! key = Some t -> In t l.
Proof.
  intros H. destruct (id_map_in_aux l ∅ key t H) as [H1|H1]; [|exact H1].
  rewrite lookup_empty in H1. discriminate.
Qed.

Lemma build_row_in (ts : list tile) (fuel : nat) :
  forall curr row, In curr ts -> build_row fuel (id_map ts) curr = Ret row ->
  head row = Some curr /\ Forall (fun t => In t ts) row.
Proof.
  induction fuel as [|f IH]; intros curr row Hc H; simpl in H; [discriminate|].
  destruct (adjacent curr !! 1%nat) as [nid|].
  - destruct (id_map ts !! nid) as [nxt|] eqn:Hn; simpl in H; [|discriminate].
    destruct (build_row f (id_map ts) nxt) as [r| |] eqn:Hr; simpl in H; try discriminate.
    injection H as <-. destruct (IH nxt r (id_map_in _ _ _ Hn) Hr) as [_ Hf].
    split; [reflexivity | constructor; assumption].
  - injection H as <-. split; [reflexivity | repeat constructor; exact Hc].
Qed.

Lemma build_grid_in (ts : list tile) (row_fuel fuel : nat) :
  forall corner g, In corner ts -> build_grid fuel row_fuel (id_map ts) corner = Ret g ->
  (exists row rest, g = row :: rest /\ head row = Some corner)
  /\ Forall (fun row => row <> [] /\ Forall (fun t => In t ts) row) g.
Proof.
  induction fuel as [|f IH]; intros corner g Hc H; simpl in H; [discriminate|].
  destruct (build_row row_fuel (id_map ts) corner) as [row| |] eqn:Hr; simpl in H; try discriminate.
  destruct (build_row_in ts row_fuel corner row Hc Hr) as [Hh Hf].
  assert (Hrow : row <> [] /\ Forall (fun t => In t ts) row)
    by (split; [intros ->; discriminate | exact Hf]).
  destruct (adjacent corner !! 2%nat) as [nid|].
  - destruct (id_map ts !! nid) as [c|] eqn:Hn; simpl in H; [|discriminate].
    destruct (build_grid f row_fuel (id_map ts) c) as [rest| |] eqn:Hg; simpl in H; try discriminate.
    injection H as <-. destruct (IH c rest (id_map_in _ _ _ Hn) Hg) as [_ Hall].
    split; [exists row, rest; auto | constructor; assumption].
  - injection H as <-. split; [exists row, []; auto | repeat constructor; apply Hrow].
Qed.

Lemma find_none_all {A} (f : A -> bool) (l : list A) :
  (forall x, In x l -> f x = false) -> List.find f l = None.
Proof.
  induction l as [|x l IH]; intros H; simpl; [reflexivity|].
  rewrite H by (left; reflexivity). apply IH. intros y Hy. apply H. right. exact Hy.
Qed.

(** When [arrange_tiles] returns, its grid is made of input tiles only, in
    non-empty rows, and starts with a tile that has exactly two neighbours,
    neither above nor to its left. *)
Theorem arrange_tiles_members (ts : list tile) (g : list (list tile)) :
  arrange_tiles ts = Ret g ->
  (exists t row rest, g = (t :: row) :: rest /\ In t ts /\ is_top_left t = true)
  /\ Forall (fun row => row <> [] /\ Forall (fun t => In t ts) row) g.
Proof.
  unfold arrange_tiles. intros H.
  destruct (List.find is_top_left ts) as [corner|] eqn:Hf; cbn [res_bind of_option] in H;
    [|discriminate].
  apply find_some in Hf. destruct Hf as [Hin Htl].
  destruct (build_grid_in ts _ _ corner g Hin H) as [(row & rest & -> & Hh) Hall].
  split; [|exact Hall]. destruct row as [|t row]; [discriminate|].
  injection Hh as ->. exists corner, row, rest. auto.
Qed.

Lemma arrange_tiles_members_witness :
  exists g, arrange_tiles assembled_example = Ret g
  /\ Forall (fun row => row <> [] /\ Forall (fun t => In t assembled_example) row) g.
Proof.
  destruct (arrange_tiles assembled_example) as [g| |] eqn:E;
    [| vm_compute in E; discriminate..].
  exists g. split; [reflexivity|]. exact (proj2 (arrange_tiles_members _ _ E)).
Defined.

(** ** [strip_border] *)

Lemma mapM_ret {A B} (f : A -> res B) (g : A -> B) (l : list A) :
  (forall x, In x l -> f x = Ret (g x)) -> mapM f l = Ret (map g l).
Proof.
  induction l as [|x l IH]; intros H; simpl; [reflexivity|].
  rewrite H by (left; reflexivity). simpl. rewrite IH by (intros y Hy; apply H; right; exact Hy).
  reflexivity.
Qed.

Lemma nth_map' {A B} (f : A -> B) (l : list A) (i : nat) (d : B) (d' : A) :
  (i < length l)%nat -> nth i (map f l) d = f (nth i l d').
Proof.
  intros Hi. rewrite (nth_indep _ d (f d')) by (rewrite length_map; exact Hi).
  apply map_nth.
Qed.

Lemma length_removelast' {A} (l : list A) : length (removelast l) = (length l - 1)%nat.
Proof.
  induction l as [|x l IH]; [reflexivity|]. destruct l as [|y l]; [reflexivity|].
  change (removelast (x :: y :: l)) with (x :: removelast (y :: l)).
  simpl length in *. rewrite IH. lia.
Qed.

Lemma nth_removelast' {A} (l : list A) (i : nat) (d : A) :
  (i < length l - 1)%nat -> nth i (removelast l) d = nth i l d.
Proof.
  revert i. induction l as [|x l IH]; intros i Hi; [simpl in Hi; lia|].
  destruct l as [|y l]; [simpl in Hi; lia|].
  change (removelast (x :: y :: l)) with (x :: removelast (y :: l)).
  destruct i as [|i]; [reflexivity|]. simpl. apply IH. simpl in *. lia.
Qed.

Lemma length_removelast_tl {A} (l : list A) : length (removelast (tl l)) = (length l - 2)%nat.
Proof.
  rewrite length_removelast'. destruct l; simpl; lia.
Qed.

Lemma nth_removelast_tl {A} (l : list A) (i : nat) (d : A) :
  (i < length l - 2)%nat -> nth i (removelast (tl l)) d = nth (S i) l d.
Proof.
  intros Hi. destruct l as [|x l]; [simpl in Hi; lia|]. simpl tl.
  rewrite nth_removelast' by (simpl in Hi; lia). reflexivity.
Qed.

Lemma strip_border_ok (n : nat) (g : grid) :
  (2 <= n)%nat -> square_grid n g ->
  strip_border g = Ret (stripped g) /\ square_grid (n - 2) (stripped g)
  /\ forall r c, (r < n - 2)%nat -> (c < n - 2)%nat -> px (stripped g) r c = px g (S r) (S c).
Proof.
  intros Hn Hg. pose proof Hg as [Hlen Hrows]. unfold stripped.
  assert (Hsub : forall r, In r (removelast (tl g)) -> length r = n).
  { intros r Hr. rewrite List.Forall_forall in Hrows. apply Hrows.
    destruct g as [|x g']; [simpl in Hr; contradiction|]. right.
    simpl tl in Hr. destruct g' as [|y g'']; [simpl in Hr; contradiction|].
    rewrite (app_removelast_last y (l := y :: g'')) by discriminate.
    apply in_or_app. left. exact Hr. }
  split.
  - destruct g as [|x g']; [simpl in Hlen; lia|]. unfold strip_border.
    apply mapM_ret. intros r Hr. specialize (Hsub r Hr).
    destruct r as [|b r]; [simpl in Hsub; lia | reflexivity].
  - split; [split|].
    + rewrite length_map, length_removelast_tl. lia.
    + apply List.Forall_map, List.Forall_forall. intros r Hr.
      rewrite length_removelast_tl, (Hsub r Hr). reflexivity.
    + intros r c Hr Hc. unfold px.
      rewrite (nth_map' _ _ r [] []) by (rewrite length_removelast_tl; lia).
      rewrite (nth_removelast_tl g r []) by lia.
      apply nth_removelast_tl. rewrite (square_row n g (S r) Hg) by lia. lia.
Qed.

(** [strip_border] removes the outer ring of a square grid of side at least
    2: the result is a square of side [n - 2] whose pixel at [(r, c)] is the
    pixel at [(r + 1, c + 1)]. *)
Theorem strip_border_square (n : nat) (g : grid) :
  (2 <= n)%nat -> square_grid n g ->
  exists h, strip_border g = Ret h /\ square_grid (n - 2) h
    /\ forall r c, (r < n - 2)%nat -> (c < n - 2)%nat -> px h r c = px g (S r) (S c).
Proof. intros Hn Hg. exists (stripped g). apply (strip_border_ok n); assumption. Qed.

Lemma strip_border_square_witness :
  exists h, strip_border (rows tile_1951) = Ret h /\ square_grid 8 h.
Proof.
  assert (Hg : square_grid 10 (rows tile_1951)) by square_by_eval.
  destruct (strip_border_square 10 (rows tile_1951) ltac:(lia) Hg) as (h & H1 & H2 & _).
  exists h. split; [exact H1 | exact H2].
Defined.

(** *** [form_image] on a square layout *)

Lemma extend_rows_spec (nr rs : grid) :
  (length rs <= length nr)%nat ->
  exists out, extend_rows nr rs = Ret out /\ length out = length nr
    /\ forall i, nth i out [] = nth i nr [] ++ nth i rs [].
Proof.
  revert nr. induction rs as [|r rs IH]; intros nr Hl.
  - exists nr. split; [destruct nr; reflexivity|]. split; [reflexivity|].
    intros i. replace (nth i ([] : grid) []) with (@nil bool) by (destruct i; reflexivity).
    rewrite app_nil_r. reflexivity.
  - destruct nr as [|x nr]; [simpl in Hl; lia|].
    destruct (IH nr) as (out & Hout & Hlen & Hnth); [simpl in Hl; lia|].
    exists ((x ++ r) :: out). cbn [extend_rows]. rewrite Hout. cbn [res_bind].
    split; [reflexivity|]. split; [simpl; lia|]. intros [|i]; [reflexivity|]. apply Hnth.
Qed.

Lemma extend_all_spec (acc : grid) (row : list tile) :
  Forall (fun t => length (rows t) = length acc) row ->
  exists out, extend_all acc row = Ret out /\ length out = length acc
    /\ forall i, nth i out [] = nth i acc [] ++ concat (map (fun t => nth i (rows t) []) row).
Proof.
  revert acc. induction row as [|t row IH]; intros acc Hrow.
  - exists acc. split; [reflexivity|]. split; [reflexivity|].
    intros i. simpl. rewrite app_nil_r. reflexivity.
  - inversion Hrow as [|? ? Ht Hrow']; subst.
    destruct (extend_rows_spec acc (rows t)) as (nr & Hnr & Hlen & Hnth); [lia|].
    destruct (IH nr) as (out & Hout & Hlen' & Hnth').
    { rewrite Hlen. exact Hrow'. }
    exists out. cbn [extend_all]. rewrite Hnr. cbn [res_bind]. split; [exact Hout|].
    split; [lia|]. intros i. rewrite Hnth', Hnth. simpl. rewrite app_assoc. reflexivity.
Qed.

Lemma compose_row_spec (m : nat) (row : list tile) :
  row <> [] -> Forall (fun t => length (rows t) = m) row ->
  exists part, compose_row row = Ret part /\ length part = m
    /\ forall i, nth i part [] = concat (map (fun t => nth i (rows t) []) row).
Proof.
  intros Hne Hrow. destruct row as [|t0 row']; [contradiction|].
  assert (Ht0 : length (rows t0) = m) by (inversion Hrow; assumption).
  destruct (extend_all_spec (repeat [] (length (rows t0))) (t0 :: row')) as (part & Hp & Hlen & Hnth).
  { rewrite repeat_length, Ht0. exact Hrow. }
  exists part. unfold compose_row. cbn [head of_option res_bind]. rewrite Hp.
  split; [reflexivity|]. split; [rewrite Hlen, repeat_length; exact Ht0|].
  intros i. rewrite Hnth, nth_repeat. reflexivity.
Qed.

Lemma mapM_Forall2 {A B} (f : A -> res B) (P : A -> B -> Prop) (l : list A) :
  (forall x, In x l -> exists y, f x = Ret y /\ P x y) ->
  exists ys, mapM f l = Ret ys /\ Forall2 P l ys.
Proof.
  induction l as [|x l IH]; intros H.
  - exists []. split; [reflexivity | constructor].
  - destruct (H x (or_introl eq_refl)) as (y & Hy & Py).
    destruct IH as (ys & Hys & Hall). { intros z Hz. apply H. right. exact Hz. }
    exists (y :: ys). cbn [mapM]. rewrite Hy. cbn [res_bind]. rewrite Hys. cbn [res_bind].
    split; [reflexivity | constructor; assumption].
Qed.

Lemma Forall2_nth' {A B} (P : A -> B -> Prop) l1 l2 i d1 d2 :
  Forall2 P l1 l2 -> (i < length l1)%nat -> P (nth i l1 d1) (nth i l2 d2).
Proof.
  intros H. revert i. induction H as [|x y l1 l2 Hxy _ IH]; intros i Hi; simpl in *; [lia|].
  destruct i; [exact Hxy | apply IH; lia].
Qed.

Lemma Forall2_length' {A B} (P : A -> B -> Prop) l1 l2 :
  Forall2 P l1 l2 -> length l1 = length l2.
Proof. induction 1; simpl; congruence. Qed.

Lemma length_concat_uniform {A} (m : nat) (ls : list (list A)) :
  Forall (fun x => length x = m) ls -> length (concat ls) = (length ls * m)%nat.
Proof.
  induction 1 as [|x ls Hx _ IH]; simpl; [reflexivity|]. rewrite length_app, Hx, IH. lia.
Qed.

Lemma nth_concat_uniform {A} (m : nat) (ls : list (list A)) (q s : nat) (d : A) :
  Forall (fun x => length x = m) ls -> (q < length ls)%nat -> (s < m)%nat ->
  nth (q * m + s) (concat ls) d = nth s (nth q ls []) d.
Proof.
  intros H. revert q. induction H as [|x ls Hx _ IH]; intros q Hq Hs; simpl in *; [lia|].
  destruct q as [|q].
  - simpl. rewrite app_nth1 by lia. reflexivity.
  - rewrite app_nth2 by nia. rewrite Hx.
    replace (S q * m + s - m)%nat with (q * m + s)%nat by nia.
    apply IH; lia.
Qed.

Lemma cell_map (f : tile -> tile) (L : list (list tile)) (r c : nat) :
  f no_tile = no_tile -> cell (map (map f) L) r c = f (cell L r c).
Proof.
  intros Hf. unfold cell. destruct (Nat.lt_ge_cases r (length L)) as [Hr|Hr].
  - rewrite (nth_map' _ _ r [] []) by exact Hr.
    destruct (Nat.lt_ge_cases c (length (nth r L []))) as [Hc|Hc].
    + apply nth_map'. exact Hc.
    + rewrite !nth_overflow by (rewrite ?length_map; exact Hc). symmetry. exact Hf.
  - rewrite (nth_overflow (map (map f) L)), (nth_overflow L) by (rewrite ?length_map; lia).
    destruct c; simpl; symmetry; exact Hf.
Qed.

Lemma layout_adj_map (f : tile -> tile) (L : list (list tile)) (r c : nat) :
  f no_tile = no_tile -> (forall t, id (f t) = id t) ->
  layout_adj (map (map f) L) r c = layout_adj L r c.
Proof.
  intros Hf Hid. unfold layout_adj. rewrite length_map, !(cell_map f L) by exact Hf.
  rewrite !Hid. reflexivity.
Qed.

Lemma cell_in (L : list (list tile)) (a b : nat) :
  (a < length L)%nat -> (b < length (nth a L []))%nat -> In (cell L a b) (concat L).
Proof.
  intros Ha Hb. apply in_concat. exists (nth a L []). split; apply nth_In; assumption.
Qed.

(** [form_image] on a completed k-by-k assembly ([k >= 2]) of distinct
    square tiles of side [n >= 3], laid out in [L] with the adjacency maps of
    that layout: the image is a square of side [k * (n - 2)], and its pixel
    at [(r, c)] is the inner pixel of the tile in layout cell
    [(r / (n - 2), c / (n - 2))], at [(r mod (n - 2) + 1, c mod (n - 2) + 1)]. *)
Theorem form_image_layout (k n : nat) (L : list (list tile)) (ts : list tile) :
  (2 <= k)%nat -> (3 <= n)%nat -> length L = k -> Forall (fun row => length row = k) L ->
  NoDup (map id (concat L)) -> Permutation ts (concat L) ->
  (forall r c, (r < k)%nat -> (c < k)%nat -> adjacent (cell L r c) = layout_adj L r c) ->
  Forall (fun t => square_grid n (rows t)) ts ->
  exists img, form_image ts = Ret img /\ square_grid (k * (n - 2)) img
    /\ forall r c, (r < k * (n - 2))%nat -> (c < k * (n - 2))%nat ->
       px img r c = px (rows (cell L (r / (n - 2)) (c / (n - 2))))
                       (S (r mod (n - 2))) (S (c mod (n - 2))).
Proof.
  intros Hk Hn HL Hrows Hnd Hperm Hadj Hsq.
  set (m := (n - 2)%nat). assert (Hm : (1 <= m)%nat) by (unfold m; lia).
  set (st := fun t => set_rows t (stripped (rows t))).
  set (L' := map (map st) L).
  assert (Hst0 : st no_tile = no_tile) by reflexivity.
  assert (Hsq_in : forall t, In t (concat L) -> square_grid n (rows t)).
  { intros t Ht. rewrite List.Forall_forall in Hsq. apply Hsq.
    apply (Permutation_in _ (Permutation_sym Hperm)). exact Ht. }
  assert (Hsq' : forall t, In t (concat L) -> square_grid m (rows (st t))
            /\ forall r c, (r < m)%nat -> (c < m)%nat ->
               px (rows (st t)) r c = px (rows t) (S r) (S c)).
  { intros t Ht. destruct (strip_border_ok n (rows t)) as (_ & H1 & H2);
      [lia | apply Hsq_in; exact Ht |]. split; [exact H1 | exact H2]. }
  assert (Hm1 : mapM (fun t => let* g := strip_border (rows t) in Ret (set_rows t g)) ts
                = Ret (map st ts)).
  { apply mapM_ret. intros t Ht. rewrite List.Forall_forall in Hsq.
    destruct (strip_border_ok n (rows t)) as [H _]; [lia | apply Hsq; exact Ht |].
    rewrite H. reflexivity. }
  assert (Harr : arrange_tiles (map st ts) = Ret L').
  { eapply (arrange_layout k).
    - exact Hk.
    - unfold L'. rewrite length_map. exact HL.
    - unfold L'. apply List.Forall_map. eapply List.Forall_impl; [|exact Hrows].
      intros row Hr. rewrite length_map. exact Hr.
    - unfold L'. rewrite <- concat_map, map_map.
      replace (map (fun x => id (st x)) (concat L)) with (map id (concat L))
        by (apply map_ext; reflexivity). exact Hnd.
    - unfold L'. rewrite <- concat_map. apply Permutation_map. exact Hperm.
    - intros r c Hr Hc. unfold L'. rewrite cell_map by reflexivity.
      rewrite layout_adj_map by reflexivity. apply Hadj; assumption. }
  assert (HLrow : forall q, (q < k)%nat -> nth q L' [] = map st (nth q L [])
                  /\ length (nth q L []) = k).
  { intros q Hq. unfold L'. rewrite (nth_map' _ _ q [] []) by lia. split; [reflexivity|].
    rewrite List.Forall_forall in Hrows. apply Hrows, nth_In. lia. }
  assert (HR : forall q i, (q < k)%nat -> (i < m)%nat ->
             length (nth q L' []) = k
             /\ Forall (fun x => length x = m) (map (fun t => nth i (rows t) []) (nth q L' []))).
  { intros q i Hq Hi. destruct (HLrow q Hq) as [-> Hlen]. split; [rewrite length_map; exact Hlen|].
    rewrite map_map. apply List.Forall_map, List.Forall_forall. intros t Ht.
    destruct (Hsq' t) as [Hs _].
    - apply in_concat. exists (nth q L []). split; [apply nth_In; lia | exact Ht].
    - apply (square_row m); assumption. }
  destruct (mapM_Forall2 compose_row
              (fun row part => length part = m
                 /\ forall i, nth i part [] = concat (map (fun t => nth i (rows t) []) row)) L')
    as (parts & Hparts & HF2).
  { intros row Hrow. unfold L' in Hrow. apply in_map_iff in Hrow.
    destruct Hrow as (row0 & <- & Hrow0).
    destruct (compose_row_spec m (map st row0)) as (part & Hp & Hl & Hnth).
    - rewrite List.Forall_forall in Hrows. specialize (Hrows row0 Hrow0).
      destruct row0; simpl in *; [lia | discriminate].
    - apply List.Forall_map, List.Forall_forall. intros t Ht.
      destruct (Hsq' t) as [[Hl _] _]; [apply in_concat; exists row0; split; assumption | exact Hl].
    - exists part. auto. }
  assert (HLp : length parts = k).
  { rewrite <- (Forall2_length' _ _ _ HF2). unfold L'. rewrite length_map. exact HL. }
  assert (Hpm : Forall (fun x => length x = m) parts).
  { apply List.Forall_forall. intros p Hp. apply (In_nth _ _ []) in Hp.
    destruct Hp as (q & Hq & <-).
    assert (Hq' : (q < length L')%nat) by (unfold L'; rewrite length_map; unfold grid in *; lia).
    exact (proj1 (Forall2_nth' _ L' parts q [] [] HF2 Hq')). }
  assert (Hrow_r : forall r, (r < k * m)%nat ->
             nth r (concat parts) [] = concat (map (fun t => nth (r mod m) (rows t) []) (nth (r / m) L' []))).
  { intros r Hr.
    assert (Hq : (r / m < k)%nat) by (apply Nat.Div0.div_lt_upper_bound; lia).
    assert (Hs : (r mod m < m)%nat) by (apply Nat.mod_upper_bound; lia).
    replace (nth r (concat parts) []) with (nth (r / m * m + r mod m) (concat parts) [])
      by (f_equal; pose proof (Nat.div_mod_eq r m); lia).
    rewrite (nth_concat_uniform m) by first [exact Hpm | unfold grid in *; lia].
    assert (Hq' : (r / m < length L')%nat) by (unfold L'; rewrite length_map; lia).
    apply (proj2 (Forall2_nth' _ L' parts (r / m) [] [] HF2 Hq')). }
  exists (concat parts). split; [|split].
  - unfold form_image. rewrite Hm1. cbn [res_bind]. rewrite Harr. cbn [res_bind].
    rewrite Hparts. reflexivity.
  - split.
    + rewrite (length_concat_uniform m) by exact Hpm. unfold grid in *. rewrite HLp. reflexivity.
    + apply List.Forall_forall. intros row Hrow. apply (In_nth _ _ []) in Hrow.
      destruct Hrow as (r & Hr & <-).
      rewrite (length_concat_uniform m) in Hr by exact Hpm. unfold grid in *. rewrite HLp in Hr.
      rewrite Hrow_r by exact Hr.
      assert (Hq : (r / m < k)%nat) by (apply Nat.Div0.div_lt_upper_bound; lia).
      assert (Hs : (r mod m < m)%nat) by (apply Nat.mod_upper_bound; lia).
      destruct (HR (r / m)%nat (r mod m)%nat Hq Hs) as [Hlen Hall].
      rewrite (length_concat_uniform m) by exact Hall. rewrite length_map, Hlen. reflexivity.
  - intros r c Hr Hc. unfold px. rewrite Hrow_r by exact Hr.
    assert (Hq : (r / m < k)%nat) by (apply Nat.Div0.div_lt_upper_bound; lia).
    assert (Hs : (r mod m < m)%nat) by (apply Nat.mod_upper_bound; lia).
    assert (Hq' : (c / m < k)%nat) by (apply Nat.Div0.div_lt_upper_bound; lia).
    assert (Hs' : (c mod m < m)%nat) by (apply Nat.mod_upper_bound; lia).
    destruct (HR (r / m)%nat (r mod m)%nat Hq Hs) as [Hlen Hall].
    replace c with (c / m * m + c mod m)%nat at 1 by (pose proof (Nat.div_mod_eq c m); lia).
    rewrite (nth_concat_uniform m) by (try rewrite length_map; try rewrite Hlen; assumption).
    rewrite (nth_map' _ _ (c / m) [] no_tile) by lia.
    change (nth (c / m) (nth (r / m) L' []) no_tile) with (cell L' (r / m) (c / m)).
    unfold L'. rewrite cell_map by reflexivity.
    destruct (Hsq' (cell L (r / m)%nat (c / m)%nat)) as [_ Hpx].
    + destruct (HLrow (r / m)%nat Hq) as [_ Hl]. apply cell_in; lia.
    + apply (Hpx (r mod m)%nat (c mod m)%nat); assumption.
Qed.

(** The example's nine tiles, assembled into their 3-by-3 layout, give a
    24-by-24 image as [form_image_layout] describes. *)
Lemma form_image_layout_witness :
  exists img, form_image (concat example_layout) = Ret img /\ square_grid 24 img
    /\ forall r c, (r < 24)%nat -> (c < 24)%nat ->
       px img r c = px (rows (cell example_layout (r / 8) (c / 8))) (S (r mod 8)) (S (c mod 8)).
Proof.
  apply (form_image_layout 3 10 example_layout (concat example_layout)).
  - lia.
  - lia.
  - vm_compute. reflexivity.
  - vm_compute. repeat constructor.
  - nodup_ids.
  - apply Permutation_refl.
  - intros r c Hr Hc.
    destruct r as [|[|[|r]]]; [| | | lia]; destruct c as [|[|[|c]]]; try lia;
      vm_compute; reflexivity.
  - vm_compute. repeat constructor.
Defined.

(** *** The on-pixel count and the result of [get_water_roughness] *)

Lemma count_filter_map {A B} (f : B -> bool) (g : A -> B) (l : list A) :
  length (List.filter f (map g l)) = length (List.filter (fun x => f (g x)) l).
Proof.
  induction l as [|x l IH]; simpl; [reflexivity|].
  destruct (f (g x)); simpl; rewrite IH; reflexivity.
Qed.

Lemma count_filter_perm {A} (f : A -> bool) (l l' : list A) :
  Permutation l l' -> length (List.filter f l) = length (List.filter f l').
Proof.
  induction 1 as [|x l l' _ IH|x y l|l l' l'' _ IH1 _ IH2]; simpl.
  - reflexivity.
  - destruct (f x); simpl; rewrite IH; reflexivity.
  - destruct (f x), (f y); reflexivity.
  - congruence.
Qed.

Lemma count_rows_pairs (h : nat -> nat -> bool) (rs cs : list nat) :
  length (List.filter (fun p : bool => p) (concat (map (fun r => map (h r) cs) rs)))
  = length (List.filter (fun p => h (fst p) (snd p)) (list_prod rs cs)).
Proof.
  induction rs as [|r rs IH]; simpl; [reflexivity|].
  rewrite List.filter_app, length_app, List.filter_app, length_app, IH, !count_filter_map.
  reflexivity.
Qed.

Lemma nodup_list_prod (rs cs : list nat) :
  List.NoDup rs -> List.NoDup cs -> List.NoDup (list_prod rs cs).
Proof.
  intros Hrs Hcs. induction Hrs as [|r rs Hr _ IH]; simpl; [constructor|].
  apply List.NoDup_app.
  - apply NoDup_map_NoDup_ForallPairs; [|exact Hcs]. intros x y _ _ E. congruence.
  - exact IH.
  - intros [a b] Ha Hb. apply in_map_iff in Ha. destruct Ha as (y & E & _).
    injection E as E1 E2. subst. apply in_prod_iff in Hb. tauto.
Qed.

Lemma count_on_pairs (n : nat) (g : grid) :
  square_grid n g ->
  count_on g = length (List.filter (fun p => px g (fst p) (snd p))
                                   (list_prod (seq 0 n) (seq 0 n))).
Proof.
  intros Hg.
  assert (Htab : g = map (fun r => map (fun c => px g r c) (seq 0 n)) (seq 0 n)).
  { apply (grid_ext n); [exact Hg | split | ].
    - rewrite length_map, length_seq. reflexivity.
    - apply List.Forall_forall. intros row Hrow. apply in_map_iff in Hrow.
      destruct Hrow as (r & <- & _). rewrite length_map, length_seq. reflexivity.
    - intros r c Hr Hc. unfold px at 2. rewrite !nth_map_seq by assumption. reflexivity. }
  unfold count_on. rewrite Htab at 1. exact (count_rows_pairs (px g) _ _).
Qed.

(** Two square grids whose pixels correspond one to one have the same
    number of pixels on. *)
Lemma count_on_reindex (n : nat) (g h : grid) (f : nat * nat -> nat * nat) :
  square_grid n g -> square_grid n h ->
  (forall r c, (r < n)%nat -> (c < n)%nat ->
     (fst (f (r, c)) < n)%nat /\ (snd (f (r, c)) < n)%nat
     /\ px h r c = px g (fst (f (r, c))) (snd (f (r, c)))) ->
  (forall p q, In p (list_prod (seq 0 n) (seq 0 n)) -> In q (list_prod (seq 0 n) (seq 0 n)) ->
     f p = f q -> p = q) ->
  count_on h = count_on g.
Proof.
  intros Hg Hh Hf Hinj.
  rewrite (count_on_pairs n h Hh), (count_on_pairs n g Hg).
  rewrite (filter_ext_in _ (fun p => px g (fst (f p)) (snd (f p))))
    by (intros [r c] Hp; apply in_prod_iff in Hp; rewrite !in_seq in Hp;
        apply (Hf r c); lia).
  rewrite <- (count_filter_map (fun q => px g (fst q) (snd q)) f).
  apply count_filter_perm, NoDup_Permutation_bis.
  - apply NoDup_map_NoDup_ForallPairs; [intros p q Hp Hq; apply Hinj; assumption|].
    apply nodup_list_prod; apply List.seq_NoDup.
  - rewrite length_map. lia.
  - intros q Hq. apply in_map_iff in Hq. destruct Hq as ([r c] & <- & Hp).
    apply in_prod_iff in Hp. rewrite !in_seq in Hp.
    destruct (Hf r c) as (H1 & H2 & _); [lia | lia |].
    revert H1 H2. destruct (f (r, c)) as [a b]. simpl. intros H1 H2.
    apply in_prod_iff. rewrite !in_seq. lia.
Qed.

Lemma count_on_rotate (n : nat) (g : grid) :
  (0 < n)%nat -> square_grid n g -> count_on (rotate_pixels g) = count_on g.
Proof.
  intros Hn Hg.
  apply (count_on_reindex n g (rotate_pixels g) (fun p => (n - 1 - snd p, fst p)%nat));
    [exact Hg | apply rotate_square; assumption | |].
  - intros r c Hr Hc. simpl. split; [lia|]. split; [lia|]. apply (px_rotate n); assumption.
  - intros [a b] [a' b'] Hp Hq E. simpl in E. injection E as E1 E2.
    apply in_prod_iff in Hp, Hq. rewrite !in_seq in Hp, Hq. f_equal; lia.
Qed.

Lemma count_on_flip (n : nat) (g : grid) :
  square_grid n g -> count_on (flip_pixels g) = count_on g.
Proof.
  intros Hg.
  apply (count_on_reindex n g (flip_pixels g) (fun p => (fst p, n - 1 - snd p)%nat));
    [exact Hg | apply flip_square; assumption | |].
  - intros r c Hr Hc. simpl. split; [lia|]. split; [lia|]. apply (px_flip n); assumption.
  - intros [a b] [a' b'] Hp Hq E. simpl in E. injection E as E1 E2.
    apply in_prod_iff in Hp, Hq. rewrite !in_seq in Hp, Hq. f_equal; lia.
Qed.

Lemma count_on_reorient (n : nat) (g : grid) (ops : list bool) :
  (0 < n)%nat -> square_grid n g ->
  count_on (reorient ops g) = count_on g /\ square_grid n (reorient ops g).
Proof.
  intros Hn. revert g. induction ops as [|b ops IH]; intros g Hg; [split; [reflexivity | exact Hg]|].
  change (reorient (b :: ops) g) with (reorient ops (if b then rotate_pixels g else flip_pixels g)).
  destruct b.
  - destruct (IH (rotate_pixels g)) as [Hc Hs]; [apply rotate_square; assumption|].
    split; [rewrite Hc; apply (count_on_rotate n); assumption | exact Hs].
  - destruct (IH (flip_pixels g)) as [Hc Hs]; [apply flip_square; assumption|].
    split; [rewrite Hc; apply (count_on_flip n); assumption | exact Hs].
Qed.

(** The loop of [get_water_roughness] only reorients the image, and it
    leaves with a nonzero count that the search gives for the image it
    leaves with. *)
Lemma roughness_loop_result (g : grid) (fuel : nat) (ops : list bool) (num : nat) (img : grid) (k : nat) :
  find_number_sea_monsters (reorient ops g) = Ret num ->
  roughness_loop fuel (reorient ops g) num = Ret (img, k) ->
  exists ops', img = reorient ops' g /\ find_number_sea_monsters img = Ret k /\ k <> 0%nat.
Proof.
  revert ops num. induction fuel as [|f IH]; intros ops num Hf Hl; cbn [roughness_loop] in Hl;
    [discriminate|].
  destruct (Nat.eqb_spec num 0) as [->|Hne].
  - cbn [Nat.eqb] in Hl. unfold roughness_pass in Hl.
    destruct (find_number_sea_monsters (rotate_pixels (reorient ops g))) as [n1| |] eqn:E1;
      cbn [res_bind] in Hl; try discriminate.
    destruct (Nat.eqb_spec n1 0) as [->|Hn1].
    + cbn [Nat.eqb] in Hl.
      destruct (find_number_sea_monsters (flip_pixels (rotate_pixels (reorient ops g))))
        as [n2| |] eqn:E2; cbn [res_bind] in Hl; try discriminate.
      assert (Hr : reorient (ops ++ [true; false]) g = flip_pixels (rotate_pixels (reorient ops g)))
        by (rewrite reorient_app; reflexivity).
      apply (IH (ops ++ [true; false]) n2); rewrite Hr; assumption.
    + cbn [res_bind] in Hl.
      assert (Hr : reorient (ops ++ [true]) g = rotate_pixels (reorient ops g))
        by (rewrite reorient_app; reflexivity).
      apply (IH (ops ++ [true]) n1); rewrite Hr; assumption.
  - injection Hl as <- <-.
    exists ops. split; [reflexivity|]. split; [exact Hf|]. exact Hne.
Qed.

(** When [get_water_roughness] returns [v] for a square image [g], the
    search found [k > 0] sea monsters in some reorientation of [g], and
    [v] is the number of pixels on in [g] minus [15 * k], modulo [2 ^ 64]:
    rotating and mirroring never change the on-pixel count.  Without
    wrap-around, [v] is that difference. *)
Theorem get_water_roughness_value (fuel n : nat) (g : grid) (v : Z) :
  (0 < n)%nat -> square_grid n g -> get_water_roughness_fuel fuel g = Ret v ->
  exists ops k, find_number_sea_monsters (reorient ops g) = Ret k /\ (0 < k)%nat
    /\ v = (Z.of_nat (count_on g) - Z.of_nat k * 15) mod 2 ^ 64
    /\ ((k * 15 <= count_on g)%nat -> Z.of_nat (count_on g) < 2 ^ 64 ->
        v = Z.of_nat (count_on g - k * 15)).
Proof.
  intros Hn Hg H. unfold get_water_roughness_fuel in H.
  destruct (find_number_sea_monsters g) as [num| |] eqn:E0; cbn [res_bind] in H; try discriminate.
  destruct (roughness_loop fuel g num) as [[img k]| |] eqn:El; cbn [res_bind] in H; try discriminate.
  destruct (roughness_loop_result g fuel [] num img k E0 El) as (ops & -> & Hk & Hk0).
  destruct (count_on_reorient n g ops Hn Hg) as [Hc _]. rewrite Hc in H.
  injection H as <-. exists ops, k. split; [exact Hk|]. split; [lia|]. split; [reflexivity|].
  intros Hle Hlt. rewrite Nat2Z.inj_sub, Nat2Z.inj_mul by exact Hle.
  apply Z.mod_small. lia.
Qed.

(** The example image has roughness 273. *)
Lemma get_water_roughness_value_witness :
  exists ops k, find_number_sea_monsters (reorient ops example_image) = Ret k /\ (0 < k)%nat
    /\ 273 = (Z.of_nat (count_on example_image) - Z.of_nat k * 15) mod 2 ^ 64
    /\ ((k * 15 <= count_on example_image)%nat -> Z.of_nat (count_on example_image) < 2 ^ 64 ->
        273 = Z.of_nat (count_on example_image - k * 15)).
Proof.
  apply (get_water_roughness_value loop_fuel 24 example_image 273);
    [lia | square_by_eval | vm_compute; reflexivity].
Defined.

(** *** The range of [find_number_sea_monsters] *)

(** [find_number_sea_monsters] panics on an image of fewer than 20 rows
    (the [usize] subtractions underflow); on a square image of side
    [n >= 20] it reads only pixels in range and counts at most one sea
    monster per start position, at most [(n - 2) * (n - 19)]. *)
Theorem find_number_sea_monsters_range (n : nat) (image : grid) :
  ((length image < 20)%nat -> find_number_sea_monsters image = Panic)
  /\ (square_grid n image -> (20 <= n)%nat ->
      exists c, find_number_sea_monsters image = Ret c /\ (c <= (n - 2) * (n - 19))%nat).
Proof.
  split; [apply find_short|]. intros Hsq Hn. apply find_square; assumption.
Qed.

(** A 3-row image panics, the 24 by 24 example image does not. *)
Lemma find_number_sea_monsters_range_witness :
  find_number_sea_monsters (repeat (repeat false 3) 3) = Panic
  /\ exists c, find_number_sea_monsters example_image = Ret c /\ (c <= 22 * 5)%nat.
Proof.
  split.
  - apply (find_number_sea_monsters_range 3 (repeat (repeat false 3) 3)). vm_compute. lia.
  - apply (find_number_sea_monsters_range 24 example_image); [square_by_eval | lia].
Defined.

(** *** Parsing *)

Lemma split_on2_cons (a b c : ascii) (cur s' : list ascii) :
  split_on2 a b cur (c :: s') =
  if Ascii.eqb c a then
    match s' with
    | c' :: s'' => if Ascii.eqb c' b then rev cur :: split_on2 a b [] s''
                   else split_on2 a b (c :: cur) s'
    | [] => split_on2 a b (c :: cur) s'
    end
  else split_on2 a b (c :: cur) s'.
Proof. reflexivity. Qed.

(** When the head of [s'] is not [b], an [a] in front of it starts no match. *)
Lemma split_on2_skip (a b c : ascii) (cur s' : list ascii) :
  (forall x s'', s' = x :: s'' -> Ascii.eqb c a = true -> Ascii.eqb x b = false) ->
  split_on2 a b cur (c :: s') = split_on2 a b (c :: cur) s'.
Proof.
  intros H. rewrite split_on2_cons. destruct (Ascii.eqb c a) eqn:Eca; [|reflexivity].
  destruct s' as [|x s'']; [reflexivity|]. rewrite (H x s'' eq_refl eq_refl). reflexivity.
Qed.

Lemma no_pair_cons (a b c : ascii) (l : list ascii) :
  no_pair a b (c :: l) = true ->
  no_pair a b l = true
  /\ forall x l', l = x :: l' -> Ascii.eqb c a = true -> Ascii.eqb x b = false.
Proof.
  destruct l as [|x l']; [intros _; split; [reflexivity | discriminate]|].
  cbn [no_pair]. intros H. apply andb_prop in H. destruct H as [H1 H2].
  split; [exact H2|]. intros y l'' E Eca. injection E as <- <-.
  rewrite Eca in H1. destruct (Ascii.eqb x b); [discriminate | reflexivity].
Qed.

(** The first piece ends at the first occurrence of [[a; b]]. *)
Lemma split_on2_app (a b : ascii) (l1 l2 cur : list ascii) :
  no_pair a b (l1 ++ [a]) = true ->
  split_on2 a b cur (l1 ++ a :: b :: l2) = (rev cur ++ l1) :: split_on2 a b [] l2.
Proof.
  revert cur. induction l1 as [|c l1 IH]; intros cur H.
  - simpl. rewrite !Ascii.eqb_refl, app_nil_r. reflexivity.
  - rewrite <- app_comm_cons in H |- *. apply no_pair_cons in H. destruct H as [H Hhd].
    rewrite split_on2_skip.
    + rewrite IH by exact H. simpl. rewrite <- app_assoc. reflexivity.
    + intros x s'' E Eca. apply (Hhd x (tl (l1 ++ [a]))); [|exact Eca].
      destruct l1 as [|d l1]; simpl in E |- *; injection E as <- _; reflexivity.
Qed.

(** Without [[a; b]] the text is one piece. *)
Lemma split_on2_last (a b : ascii) (l cur : list ascii) :
  no_pair a b l = true -> split_on2 a b cur l = [rev cur ++ l].
Proof.
  revert cur. induction l as [|c l IH]; intros cur H.
  - simpl. rewrite app_nil_r. reflexivity.
  - apply no_pair_cons in H. destruct H as [H Hhd].
    rewrite split_on2_skip by exact Hhd. rewrite IH by exact H.
    simpl. rewrite <- app_assoc. reflexivity.
Qed.

Lemma no_pair_app_l (a b : ascii) (l m : list ascii) :
  no_pair a b (l ++ m) = true -> no_pair a b l = true.
Proof.
  induction l as [|c l IH]; [reflexivity|]. intros H.
  rewrite <- app_comm_cons in H. apply no_pair_cons in H. destruct H as [H Hhd].
  destruct l as [|d l]; [reflexivity|]. cbn [no_pair]. apply andb_true_intro. split.
  - destruct (Ascii.eqb c a) eqn:Eca; [|reflexivity].
    rewrite (Hhd d (l ++ m) eq_refl eq_refl). reflexivity.
  - apply IH. exact H.
Qed.

(** A text without [a] before one with no [[a; b]]. *)
Lemma no_pair_prefix (a b : ascii) (l m : list ascii) :
  Forall (fun c => c <> a) l -> no_pair a b m = true -> no_pair a b (l ++ m) = true.
Proof.
  induction 1 as [|c l Hc _ IH]; intros Hm; [exact Hm|].
  rewrite <- app_comm_cons. specialize (IH Hm).
  destruct (l ++ m) as [|d r] eqn:E; [reflexivity|].
  cbn [no_pair]. apply andb_true_intro. split; [|exact IH].
  destruct (Ascii.eqb_spec c a); [contradiction | reflexivity].
Qed.

(** [[a; b]] splits joined pieces apart again. *)
Lemma split_on2_join (a b : ascii) (ls : list (list ascii)) (z : list ascii) :
  Forall (fun l => no_pair a b (l ++ [a]) = true) ls -> no_pair a b z = true ->
  split_on2 a b [] (join_with [a; b] (ls ++ [z])) = ls ++ [z].
Proof.
  intros Hls Hz. induction Hls as [|l ls Hl _ IH].
  - simpl. apply split_on2_last. exact Hz.
  - rewrite <- app_comm_cons.
    assert (E : join_with [a; b] (l :: ls ++ [z]) = l ++ a :: b :: join_with [a; b] (ls ++ [z])).
    { destruct ls; reflexivity. }
    rewrite E, split_on2_app by exact Hl. rewrite IH. reflexivity.
Qed.

Lemma join_with_snoc_app (sep : list ascii) (ls : list (list ascii)) (z tail : list ascii) :
  join_with sep (ls ++ [z]) ++ tail = join_with sep (ls ++ [z ++ tail]).
Proof.
  induction ls as [|l ls IH]; [reflexivity|].
  rewrite <- !app_comm_cons.
  assert (E : forall w, join_with sep (l :: ls ++ [w]) = l ++ sep ++ join_with sep (ls ++ [w])).
  { intros w. destruct ls; reflexivity. }
  rewrite !E, <- IH, <- !app_assoc. reflexivity.
Qed.

Lemma lines_aux_skip (l s cur : list ascii) :
  Forall (fun c => c <> nl) l -> lines_aux cur (l ++ s) = lines_aux (rev l ++ cur) s.
Proof.
  intros Hl. revert cur. induction Hl as [|c l Hc _ IH]; intros cur; [reflexivity|].
  rewrite <- app_comm_cons. cbn [lines_aux].
  destruct (Ascii.eqb_spec c nl); [contradiction|].
  rewrite IH. simpl. rewrite <- app_assoc. reflexivity.
Qed.

Lemma drop_cr_rev (r : list ascii) :
  Forall (fun c => c <> cr) r -> drop_cr (rev r) = rev r.
Proof.
  intros Hr. destruct (rev r) as [|c r'] eqn:E; [reflexivity|]. simpl.
  assert (Hc : In c r) by (apply in_rev; rewrite E; left; reflexivity).
  rewrite List.Forall_forall in Hr. destruct (Ascii.eqb_spec c cr); [|reflexivity].
  exfalso. exact (Hr c Hc e).
Qed.

Lemma forall_and_l {A} (P Q : A -> Prop) (l : list A) :
  Forall (fun x => P x /\ Q x) l -> Forall P l.
Proof. intros H. eapply List.Forall_impl; [|exact H]. intros x [Hx _]. exact Hx. Qed.

(** [lines] gives back rows joined by ['\n'], also with a final ['\n']. *)
Lemma lines_join (R : list (list ascii)) (tail : list ascii) :
  Forall text_row_ok R -> tail = [] \/ (tail = [nl] /\ R <> []) ->
  lines (join_with [nl] R ++ tail) = R.
Proof.
  intros HR Htail. unfold lines. induction HR as [|r R [Hne Hr] HR IH].
  - destruct Htail as [->|[_ H]]; [reflexivity | contradiction].
  - assert (Hnl : Forall (fun c => c <> nl) r) by (eapply List.Forall_impl; [|exact Hr]; tauto).
    assert (Hcr : Forall (fun c => c <> cr) r) by (eapply List.Forall_impl; [|exact Hr]; tauto).
    destruct R as [|r' R].
    + simpl. rewrite lines_aux_skip by exact Hnl. rewrite app_nil_r.
      destruct Htail as [->|[-> _]].
      * simpl. destruct (rev r) as [|c rr] eqn:E.
        -- exfalso. apply Hne. rewrite <- (rev_involutive r), E. reflexivity.
        -- rewrite <- E, rev_involutive. reflexivity.
      * cbn [lines_aux]. rewrite Ascii.eqb_refl, drop_cr_rev, rev_involutive by exact Hcr.
        reflexivity.
    + change (join_with [nl] (r :: r' :: R)) with (r ++ [nl] ++ join_with [nl] (r' :: R)).
      rewrite <- !app_assoc, lines_aux_skip by exact Hnl. rewrite app_nil_r.
      cbn [app lines_aux]. rewrite Ascii.eqb_refl, drop_cr_rev, rev_involutive by exact Hcr.
      assert (Ht' : tail = [] \/ (tail = [nl] /\ r' :: R <> [])).
      { destruct Htail as [->|[-> _]]; [left; reflexivity | right; split; [reflexivity | discriminate]]. }
      rewrite (IH Ht'). reflexivity.
Qed.

Lemma mapM_map {A B C} (f : B -> res C) (h : A -> B) (g : A -> C) (l : list A) :
  (forall x, In x l -> f (h x) = Ret (g x)) -> mapM f (map h l) = Ret (map g l).
Proof.
  induction l as [|x l IH]; intros H; [reflexivity|]. simpl.
  rewrite (H x (or_introl eq_refl)). cbn [res_bind].
  rewrite IH by (intros y Hy; apply H; right; exact Hy). reflexivity.
Qed.

Lemma mapM_app {A B} (f : A -> res B) (l1 l2 : list A) :
  mapM f (l1 ++ l2) = let* ys1 := mapM f l1 in let* ys2 := mapM f l2 in Ret (ys1 ++ ys2).
Proof.
  induction l1 as [|x l1 IH]; simpl.
  - destruct (mapM f l2); reflexivity.
  - destruct (f x); [|reflexivity..]. cbn [res_bind]. rewrite IH.
    destruct (mapM f l1); [|reflexivity..]. cbn [res_bind].
    destruct (mapM f l2); reflexivity.
Qed.

Lemma mapM_no_exit {A B} (f : A -> res B) (l : list A) :
  (forall x, f x <> NoExit) -> mapM f l <> NoExit.
Proof.
  intros Hf. induction l as [|x l IH]; simpl; [discriminate|].
  destruct (f x) eqn:E; [|discriminate | exfalso; exact (Hf x E)]. cbn [res_bind].
  destruct (mapM f l); [discriminate | discriminate | exact IH].
Qed.

Lemma mapM_panic {A B} (f : A -> res B) (l : list A) :
  (forall x, f x <> NoExit) -> (exists x, In x l /\ f x = Panic) -> mapM f l = Panic.
Proof.
  intros Hf (x & Hx & Hpx). induction l as [|y l IH]; [contradiction|]. simpl.
  destruct Hx as [<-|Hx].
  - rewrite Hpx. reflexivity.
  - destruct (f y) eqn:E; [|reflexivity | exfalso; exact (Hf y E)]. cbn [res_bind].
    rewrite (IH Hx). reflexivity.
Qed.

Lemma parse_pixel_res_no_exit (c : ascii) : parse_pixel_res c <> NoExit.
Proof. unfold parse_pixel_res. destruct (Ascii.eqb c "#"%char), (Ascii.eqb c "."%char); discriminate. Qed.

Lemma tile_from_str_no_exit (s : list ascii) : tile_from_str s <> NoExit.
Proof.
  unfold tile_from_str. destruct (split_on2 ":"%char nl [] s) as [|label [|grid rest]]; try discriminate.
  destruct (parse_u32 _); cbn [of_option res_bind]; [|discriminate].
  destruct (mapM (mapM parse_pixel_res) (lines grid)) eqn:E; cbn [res_bind]; try discriminate.
  exfalso. revert E. apply mapM_no_exit. intros x. apply mapM_no_exit, parse_pixel_res_no_exit.
Qed.

Lemma digit_char_code (d : Z) :
  0 <= d <= 9 -> Z.of_nat (nat_of_ascii (digit_char d)) = 48 + d.
Proof. intros Hd. unfold digit_char. rewrite nat_ascii_embedding by lia. lia. Qed.

Lemma digit_char_not (d : Z) (x : ascii) :
  0 <= d <= 9 -> Z.of_nat (nat_of_ascii x) < 48 \/ 57 < Z.of_nat (nat_of_ascii x) ->
  digit_char d <> x.
Proof. intros Hd Hx E. rewrite <- E, digit_char_code in Hx by exact Hd. lia. Qed.

Lemma u32_digits_app (acc : Z) (l1 l2 : list ascii) :
  u32_digits acc (l1 ++ l2) =
  match u32_digits acc l1 with Some a => u32_digits a l2 | None => None end.
Proof.
  revert acc. induction l1 as [|c l1 IH]; intros acc; [reflexivity|]. cbn [u32_digits app].
  destruct (andb _ _); [|reflexivity]. destruct (Z.ltb _ _); [apply IH | reflexivity].
Qed.

Lemma decimal_fuel_digits (f : nat) (v : Z) :
  0 <= v -> Forall (fun c => exists d, 0 <= d <= 9 /\ c = digit_char d) (decimal_fuel f v).
Proof.
  revert v. induction f as [|f IH]; intros v Hv; cbn [decimal_fuel]; [constructor|].
  destruct (Z.ltb_spec v 10).
  - constructor; [exists v; split; [lia | reflexivity] | constructor].
  - apply List.Forall_app. split.
    + apply IH. apply Z.div_pos; lia.
    + constructor; [|constructor]. exists (v mod 10). split; [|reflexivity].
      pose proof (Z.mod_pos_bound v 10). lia.
Qed.

Lemma u32_digits_decimal (f : nat) (v : Z) :
  0 <= v -> v < 10 ^ Z.of_nat f ->
  u32_digits 0 (decimal_fuel f v) = if v <? 2 ^ 32 then Some v else None.
Proof.
  revert v. induction f as [|f IH]; intros v Hv Hlt.
  - simpl in Hlt. assert (v = 0) by lia. subst. reflexivity.
  - rewrite Nat2Z.inj_succ, Z.pow_succ_r in Hlt by lia.
    cbn [decimal_fuel]. destruct (Z.ltb_spec v 10).
    + cbn [u32_digits]. rewrite digit_char_code by lia.
      replace (48 + v - 48) with v by lia.
      assert (E1 : (0 <=? v) && (v <=? 9) = true)
        by (apply andb_true_intro; split; apply Z.leb_le; lia).
      rewrite E1. replace (0 * 10 + v) with v by lia.
      destruct (v <? 2 ^ 32); reflexivity.
    + pose proof (Z.mod_pos_bound v 10) as Hm.
      pose proof (Z.div_mod v 10) as Hdm.
      rewrite u32_digits_app, IH.
      * destruct (Z.ltb_spec (v / 10) (2 ^ 32)).
        -- cbn [u32_digits]. rewrite digit_char_code by lia.
           replace (48 + v mod 10 - 48) with (v mod 10) by lia.
           assert (E1 : (0 <=? v mod 10) && (v mod 10 <=? 9) = true)
             by (apply andb_true_intro; split; apply Z.leb_le; lia).
           rewrite E1. replace (v / 10 * 10 + v mod 10) with v by lia.
           destruct (v <? 2 ^ 32); reflexivity.
        -- destruct (Z.ltb_spec v (2 ^ 32)); [lia | reflexivity].
      * apply Z.div_pos; lia.
      * apply Z.div_lt_upper_bound; lia.
Qed.

Lemma decimal_digits (v : Z) :
  0 <= v -> u32_digits 0 (decimal v) = if v <? 2 ^ 32 then Some v else None.
Proof.
  intros Hv. apply u32_digits_decimal; [exact Hv|].
  pose proof (Z.log2_nonneg v) as Hl.
  rewrite Nat2Z.inj_succ, Z2Nat.id by exact Hl.
  destruct (Z.eq_dec v 0) as [->|Hv0]; [reflexivity|].
  destruct (Z.log2_spec v) as [_ Hup]; [lia|].
  eapply Z.lt_le_trans; [exact Hup|]. apply Z.pow_le_mono_l. lia.
Qed.

Lemma decimal_head (v : Z) :
  0 <= v -> exists d rest, 0 <= d <= 9 /\ decimal v = digit_char d :: rest
    /\ Forall (fun c => exists d, 0 <= d <= 9 /\ c = digit_char d) (decimal v).
Proof.
  intros Hv. pose proof (decimal_fuel_digits (S (Z.to_nat (Z.log2 v))) v Hv) as Hall.
  unfold decimal. fold (decimal v) in Hall |- *.
  destruct (decimal v) as [|c rest] eqn:E.
  - exfalso. unfold decimal in E. cbn [decimal_fuel] in E.
    destruct (v <? 10); [discriminate|]. apply app_eq_nil in E. destruct E as [_ E]. discriminate.
  - inversion Hall as [|? ? (d & Hd & ->) _]; subst. exists d, rest. auto.
Qed.

Lemma strip_prefix_app (p s : list ascii) : strip_prefix p (p ++ s) = Some s.
Proof. induction p as [|c p IH]; simpl; [reflexivity|]. rewrite Ascii.eqb_refl. exact IH. Qed.

Lemma trim_tile_decimal (v : Z) :
  0 <= v ->
  trim_start_matches (list_ascii_of_string "Tile ") (list_ascii_of_string "Tile " ++ decimal v)
  = decimal v.
Proof.
  intros Hv. destruct (decimal_head v Hv) as (d & rest & Hd & E & _).
  unfold trim_start_matches.
  assert (Hlen : exists f, S (length (list_ascii_of_string "Tile " ++ decimal v)) = S (S f)).
  { exists (length (list_ascii_of_string "Tile " ++ decimal v) - 1)%nat.
    rewrite length_app. simpl. lia. }
  destruct Hlen as [f ->].
  change (list_ascii_of_string "Tile ") with ["T"; "i"; "l"; "e"; " "]%char.
  cbn [trim_start_matches_fuel]. rewrite strip_prefix_app, E. cbn [strip_prefix].
  destruct (Ascii.eqb_spec "T"%char (digit_char d)) as [Heq|]; [|reflexivity].
  exfalso. apply (digit_char_not d "T"%char Hd); [right; reflexivity | symmetry; exact Heq].
Qed.

Lemma parse_u32_decimal (v : Z) :
  0 <= v -> parse_u32 (decimal v) = if v <? 2 ^ 32 then Some v else None.
Proof.
  intros Hv. destruct (decimal_head v Hv) as (d & rest & Hd & E & _).
  assert (Hplus : Ascii.eqb (digit_char d) "+"%char = false).
  { destruct (Ascii.eqb_spec (digit_char d) "+"%char) as [Heq|]; [|reflexivity].
    exfalso. apply (digit_char_not d "+"%char Hd); [left; reflexivity | exact Heq]. }
  rewrite <- decimal_digits by exact Hv. unfold parse_u32. rewrite E.
  destruct rest; rewrite Hplus; reflexivity.
Qed.

Lemma label_chars (v : Z) :
  0 <= v -> Forall (fun c => c <> ":"%char /\ c <> nl) (list_ascii_of_string "Tile " ++ decimal v).
Proof.
  intros Hv. apply List.Forall_app. split.
  - simpl. repeat constructor; unfold nl; discriminate.
  - destruct (decimal_head v Hv) as (_ & _ & _ & _ & Hall).
    eapply List.Forall_impl; [|exact Hall]. intros c (d & Hd & ->). split.
    + apply digit_char_not; [exact Hd | right; reflexivity].
    + apply digit_char_not; [exact Hd | left; reflexivity].
Qed.

Lemma join_with_chars (P : ascii -> Prop) (sep : list ascii) (ls : list (list ascii)) :
  Forall P sep -> Forall (Forall P) ls -> Forall P (join_with sep ls).
Proof.
  intros Hsep. induction 1 as [|l ls Hl _ IH]; [constructor|].
  destruct ls as [|l' ls]; [exact Hl|].
  change (join_with sep (l :: l' :: ls)) with (l ++ sep ++ join_with sep (l' :: ls)).
  apply List.Forall_app. split; [exact Hl|]. apply List.Forall_app. auto.
Qed.

Lemma render_rows_ok (rs : grid) :
  Forall (fun r => r <> []) rs -> Forall text_row_ok (map (map render_pixel) rs).
Proof.
  intros H. apply List.Forall_map. eapply List.Forall_impl; [|exact H]. intros r Hr. split.
  - destruct r; [contradiction | discriminate].
  - apply List.Forall_map, List.Forall_forall. intros b _.
    destruct b; unfold render_pixel, nl, cr; repeat split; discriminate.
Qed.

Lemma parse_render_rows (rs : grid) :
  mapM (mapM parse_pixel_res) (map (map render_pixel) rs) = Ret rs.
Proof.
  rewrite (mapM_map _ _ (fun r => r)), map_id; [reflexivity|].
  intros r _. rewrite (mapM_map _ _ (fun b => b)), map_id; [reflexivity|].
  intros b _. destruct b; reflexivity.
Qed.

(** [Tile::from_str] on a rendered tile, with an optional final ['\n']. *)
Lemma tile_from_str_render_tail (t : tile) (tail : list ascii) :
  0 <= id t < 2 ^ 32 -> Forall (fun r => r <> []) (rows t) ->
  tail = [] \/ (tail = [nl] /\ rows t <> []) ->
  tile_from_str (render_tile t ++ tail) = Ret (fresh_tile t).
Proof.
  intros Hid Hrows Htail.
  pose proof (render_rows_ok (rows t) Hrows) as HR.
  set (R := map (map render_pixel) (rows t)) in HR.
  pose proof (label_chars (id t) ltac:(lia)) as Hlab.
  set (label := list_ascii_of_string "Tile " ++ decimal (id t)) in Hlab.
  assert (Hg : Forall (fun c => c <> ":"%char) (join_with [nl] R ++ tail)).
  { apply List.Forall_app. split.
    - apply join_with_chars; [constructor; [unfold nl; discriminate | constructor]|].
      eapply List.Forall_impl; [|exact HR]. intros r [_ Hr].
      eapply List.Forall_impl; [|exact Hr]. tauto.
    - destruct Htail as [->|[-> _]]; [constructor | constructor; [unfold nl; discriminate | constructor]]. }
  assert (E : render_tile t ++ tail = label ++ ":"%char :: nl :: (join_with [nl] R ++ tail)).
  { unfold render_tile, label, R. rewrite <- !app_assoc. reflexivity. }
  unfold tile_from_str. rewrite E, split_on2_app.
  2: { apply no_pair_prefix; [eapply forall_and_l; exact Hlab | reflexivity]. }
  rewrite (split_on2_last _ _ (join_with [nl] R ++ tail)).
  2: { rewrite <- (app_nil_r (join_with [nl] R ++ tail)). apply no_pair_prefix; [exact Hg | reflexivity]. }
  cbn [rev app]. unfold label. rewrite trim_tile_decimal, parse_u32_decimal by lia.
  destruct (Z.ltb_spec (id t) (2 ^ 32)); [|lia]. cbn [of_option res_bind].
  rewrite lines_join; [| exact HR | destruct Htail as [->|[-> Hne]]; [left; reflexivity | right]].
  - unfold R. rewrite parse_render_rows. reflexivity.
  - split; [reflexivity|]. unfold R. destruct (rows t); [contradiction | discriminate].
Qed.

Lemma lines_join_nil (R : list (list ascii)) :
  Forall text_row_ok R -> lines (join_with [nl] R) = R.
Proof.
  intros HR. rewrite <- (app_nil_r (join_with [nl] R)). apply lines_join; [exact HR | left; reflexivity].
Qed.

Lemma join_no_colon (R : list (list ascii)) (tail : list ascii) :
  Forall text_row_ok R -> Forall (fun c => c <> ":"%char) tail ->
  no_pair ":"%char nl (join_with [nl] R ++ tail) = true.
Proof.
  intros HR Ht. rewrite <- (app_nil_r (join_with [nl] R ++ tail)).
  apply no_pair_prefix; [|reflexivity]. apply List.Forall_app. split; [|exact Ht].
  apply join_with_chars; [constructor; [unfold nl; discriminate | constructor]|].
  eapply List.Forall_impl; [|exact HR]. intros r [_ Hr].
  eapply List.Forall_impl; [|exact Hr]. intros c (_ & _ & Hc). exact Hc.
Qed.

Lemma no_pair_nl_row (r m : list ascii) :
  r <> [] -> Forall (fun c => c <> nl) r -> no_pair nl nl m = true ->
  no_pair nl nl (nl :: r ++ m) = true.
Proof.
  intros Hne Hr Hm. destruct r as [|c r']; [contradiction|].
  pose proof Hr as Hr'. inversion Hr' as [|? ? Hc _]; subst.
  change (nl :: (c :: r') ++ m) with (nl :: c :: (r' ++ m)).
  cbn [no_pair]. apply andb_true_intro. split.
  - destruct (Ascii.eqb_spec c nl); [contradiction|]. rewrite andb_false_r. reflexivity.
  - change (no_pair nl nl ((c :: r') ++ m) = true). apply no_pair_prefix; assumption.
Qed.

Lemma no_pair_join_nl (R : list (list ascii)) :
  Forall text_row_ok R -> R <> [] -> no_pair nl nl (nl :: (join_with [nl] R ++ [nl])) = true.
Proof.
  induction 1 as [|r R [Hne Hr] HR IH]; intros H0; [exfalso; apply H0; reflexivity|].
  assert (Hnl : Forall (fun c => c <> nl) r) by (eapply List.Forall_impl; [|exact Hr]; intros c (Hc & _); exact Hc).
  destruct R as [|r' R].
  - apply no_pair_nl_row; [exact Hne | exact Hnl | reflexivity].
  - change (join_with [nl] (r :: r' :: R)) with (r ++ [nl] ++ join_with [nl] (r' :: R)).
    rewrite <- !app_assoc. apply no_pair_nl_row; [exact Hne | exact Hnl|].
    apply IH. discriminate.
Qed.

Lemma render_tile_no_pair (t : tile) :
  0 <= id t -> rows t <> [] -> Forall (fun r => r <> []) (rows t) ->
  no_pair nl nl (render_tile t ++ [nl]) = true.
Proof.
  intros Hid Hne Hrows. unfold render_tile.
  replace ((list_ascii_of_string "Tile " ++ decimal (id t) ++ [":"%char; nl]
            ++ join_with [nl] (map (map render_pixel) (rows t))) ++ [nl])
    with (((list_ascii_of_string "Tile " ++ decimal (id t)) ++ [":"%char])
          ++ nl :: (join_with [nl] (map (map render_pixel) (rows t)) ++ [nl]))
    by (rewrite <- !app_assoc; reflexivity).
  apply no_pair_prefix.
  - apply List.Forall_app. split.
    + eapply List.Forall_impl; [|apply label_chars; exact Hid]. intros c (_ & Hc). exact Hc.
    + constructor; [unfold nl; discriminate | constructor].
  - apply no_pair_join_nl; [apply render_rows_ok; exact Hrows|].
    destruct (rows t); [contradiction | discriminate].
Qed.

Lemma split_trailing_blank (n : nat) (s cur : list ascii) :
  (length s <= n)%nat ->
  In [] (split_on2 nl nl cur (s ++ [nl; nl])) \/ In [nl] (split_on2 nl nl cur (s ++ [nl; nl])).
Proof.
  revert s cur. induction n as [|n IH]; intros s cur Hlen.
  - destruct s; [|simpl in Hlen; lia]. left. cbn [app].
    rewrite split_on2_cons, !Ascii.eqb_refl. right. left. reflexivity.
  - destruct s as [|c s'].
    + left. cbn [app]. rewrite split_on2_cons, !Ascii.eqb_refl. right. left. reflexivity.
    + rewrite <- app_comm_cons, split_on2_cons. simpl in Hlen.
      destruct (Ascii.eqb c nl) eqn:Ec; [|apply IH; lia].
      destruct s' as [|d s''].
      * right. cbn [app]. rewrite Ascii.eqb_refl. right.
        rewrite split_on2_cons, Ascii.eqb_refl. left. reflexivity.
      * rewrite <- app_comm_cons. destruct (Ascii.eqb d nl) eqn:Ed.
        -- destruct (IH s'' []) as [H|H]; [simpl in Hlen; lia | left | right]; right; exact H.
        -- apply (IH (d :: s'')). simpl in Hlen |- *. lia.
Qed.



(** The label of [Tile::from_str] is parsed with [unwrap]: an id of
    [2^32] or more panics, whatever follows the [":\n"]. *)
Theorem tile_from_str_id_overflow (v : Z) (grid_text : list ascii) :
  2 ^ 32 <= v ->
  tile_from_str (list_ascii_of_string "Tile " ++ decimal v ++ ":"%char :: nl :: grid_text) = Panic.
Proof.
  intros Hv. unfold tile_from_str. rewrite app_assoc, split_on2_app.
  2: { apply no_pair_prefix; [eapply forall_and_l, label_chars; lia | reflexivity]. }
  destruct (split_on2 ":"%char nl [] grid_text) as [|g rest]; [reflexivity|].
  cbn [rev app]. rewrite trim_tile_decimal, parse_u32_decimal by lia.
  destruct (Z.ltb_spec v (2 ^ 32)); [lia | reflexivity].
Qed.

(** The id 4294967296 overflows a [u32]. *)
Lemma tile_from_str_id_overflow_witness :
  tile_from_str (list_ascii_of_string "Tile " ++ decimal 4294967296 ++ ":"%char :: nl :: []) = Panic.
Proof. apply (tile_from_str_id_overflow 4294967296 []). lia. Defined.

(** [s.split(":\n").next_tuple().unwrap()] panics when the text has no
    [":\n"], as the empty piece after a final blank line has. *)
Theorem tile_from_str_no_separator (s : list ascii) :
  no_pair ":"%char nl s = true -> tile_from_str s = Panic.
Proof. intros H. unfold tile_from_str. rewrite split_on2_last by exact H. reflexivity. Qed.

(** The empty text and a label with [':'] but no ['\n'] after it panic. *)
Lemma tile_from_str_no_separator_witness :
  tile_from_str [] = Panic /\ tile_from_str (list_ascii_of_string "Tile 1951:#.") = Panic.
Proof.
  split; apply tile_from_str_no_separator; reflexivity.
Defined.

(** A pixel character other than ['#'] or ['.'] panics, whatever the
    label. *)
Theorem tile_from_str_bad_char (label : list ascii) (R : list (list ascii)) :
  Forall (fun c => c <> ":"%char) label -> Forall text_row_ok R ->
  (exists r c, In r R /\ In c r /\ c <> "#"%char /\ c <> "."%char) ->
  tile_from_str (label ++ ":"%char :: nl :: join_with [nl] R) = Panic.
Proof.
  intros Hl HR (r & c & Hr & Hc & H1 & H2).
  unfold tile_from_str. rewrite split_on2_app by (apply no_pair_prefix; [exact Hl | reflexivity]).
  rewrite split_on2_last.
  2: { rewrite <- (app_nil_r (join_with [nl] R)). apply join_no_colon; [exact HR | constructor]. }
  cbn [rev app]. destruct (parse_u32 _); cbn [of_option res_bind]; [|reflexivity].
  rewrite lines_join_nil by exact HR.
  rewrite mapM_panic; [reflexivity | intros x; apply mapM_no_exit, parse_pixel_res_no_exit|].
  exists r. split; [exact Hr|]. apply mapM_panic; [exact parse_pixel_res_no_exit|].
  exists c. split; [exact Hc|]. unfold parse_pixel_res.
  destruct (Ascii.eqb_spec c "#"%char); [contradiction|].
  destruct (Ascii.eqb_spec c "."%char); [contradiction | reflexivity].
Qed.

(** A row ["#x"] panics. *)
Lemma tile_from_str_bad_char_witness :
  tile_from_str (list_ascii_of_string "Tile 7" ++ ":"%char :: nl
                 :: join_with [nl] [list_ascii_of_string "#x"]) = Panic.
Proof.
  apply tile_from_str_bad_char.
  - simpl. repeat constructor; discriminate.
  - simpl. repeat constructor; unfold nl, cr; discriminate.
  - exists (list_ascii_of_string "#x"), "x"%char. simpl.
    split; [left; reflexivity|]. split; [right; left; reflexivity|]. split; discriminate.
Defined.

(** [get_data] reads back tiles rendered and joined by blank lines, with
    or without a final ['\n']: every tile comes back in order, without
    neighbours and not fixed. *)
Theorem get_data_render (ts : list tile) (tail : list ascii) :
  ts <> [] ->
  Forall (fun t => 0 <= id t < 2 ^ 32 /\ rows t <> [] /\ Forall (fun r => r <> []) (rows t)) ts ->
  tail = [] \/ tail = [nl] ->
  get_data (render_input ts ++ tail) = Ret (map fresh_tile ts).
Proof.
  intros Hne Hts Htail.
  destruct (exists_last Hne) as (ts' & t & ->).
  apply List.Forall_app in Hts. destruct Hts as [Hts' Ht].
  inversion Ht as [|? ? (Hid & Hrne & Hrows) _]; subst.
  unfold render_input, get_data. rewrite map_app. cbn [map].
  rewrite join_with_snoc_app, split_on2_join.
  - rewrite mapM_app, (mapM_map _ _ fresh_tile).
    + cbn [res_bind mapM]. rewrite tile_from_str_render_tail.
      * cbn [res_bind]. rewrite map_app. reflexivity.
      * exact Hid.
      * exact Hrows.
      * destruct Htail as [->| ->]; [left; reflexivity | right; split; [reflexivity | exact Hrne]].
    + intros x Hx. rewrite List.Forall_forall in Hts'. destruct (Hts' x Hx) as (Hidx & _ & Hrx).
      rewrite <- (app_nil_r (render_tile x)).
      apply tile_from_str_render_tail; [exact Hidx | exact Hrx | left; reflexivity].
  - apply List.Forall_map. eapply List.Forall_impl; [|exact Hts'].
    intros x (Hidx & Hnex & Hrx). apply render_tile_no_pair; [lia | exact Hnex | exact Hrx].
  - destruct Htail as [->| ->].
    + rewrite app_nil_r. apply (no_pair_app_l _ _ _ [nl]).
      apply render_tile_no_pair; [lia | exact Hrne | exact Hrows].
    + apply render_tile_no_pair; [lia | exact Hrne | exact Hrows].
Qed.

(** The example's nine tiles, rendered with a final ['\n'], read back. *)
Lemma get_data_render_witness :
  get_data (render_input example_tiles ++ [nl]) = Ret (map fresh_tile example_tiles).
Proof.
  apply get_data_render.
  - discriminate.
  - repeat constructor; vm_compute; discriminate.
  - right. reflexivity.
Defined.

(** An input that ends in a blank line makes [get_data] panic: the last
    piece of [split("\n\n")] is empty or a lone ['\n'], which has no
    [":\n"]. *)
Theorem get_data_trailing_blank_line (s : list ascii) :
  get_data (s ++ [nl; nl]) = Panic.
Proof.
  unfold get_data. apply mapM_panic; [exact tile_from_str_no_exit|].
  destruct (split_trailing_blank (length s) s [] (le_n _)) as [H|H].
  - exists []. split; [exact H | reflexivity].
  - exists [nl]. split; [exact H | reflexivity].
Qed.
